(** * InvitaeTech: transcript coordinate to genomic coordinate

    A shallow embedding of [InvitaeTech.py] and the properties of its
    CIGAR validator, expander, coordinate resolver and transcript loader.

    Modelling conventions.
    - A Python [str] is a [list ascii]: one entry per code point, code
      points below 256.  [py "3M"] writes a literal.
    - A Python [int] is a [Z].
    - A raised exception is the [Raise] case of [res]; every exception of
      the functions embedded here is a [ValueError], told apart by its
      message.
    - The value returned by [get_genome_pos] is an [int] or the string
      ['NA']: the type [genome_pos]. *)

From Stdlib Require Import ZArith Ascii String List Bool Lia.
From stdpp Require Import base option list gmap strings.

Local Open Scope char_scope.
Local Open Scope Z_scope.

(** ** Python values *)

Abbreviation str := (list ascii).

Definition py (s : string) : str := list_ascii_of_string s.

Definition code (c : ascii) : N := N_of_ascii c.

(** [c] is one of the ten characters ['0'] .. ['9']. *)
Definition is_digit (c : ascii) : bool :=
  ((48 <=? code c) && (code c <=? 57))%N.

(** [str.isnumeric] on one character.  Below code point 256 the characters
    with a numeric value are the ASCII digits, the superscripts 2, 3, 1 and
    the vulgar fractions 1/4, 1/2, 3/4. *)
Definition isnumeric (c : ascii) : bool :=
  is_digit c ||
  existsb (N.eqb (code c)) [178; 179; 185; 188; 189; 190]%N.

(** [str.isspace] on one character, as [str.strip] uses it. *)
Definition isspace (c : ascii) : bool :=
  (((9 <=? code c) && (code c <=? 13)) ||
   ((28 <=? code c) && (code c <=? 32)) ||
   (code c =? 133) || (code c =? 160))%N.

Fixpoint lstrip (s : str) : str :=
  match s with
  | c :: s' => if isspace c then lstrip s' else s
  | [] => []
  end.

(** [s.strip()]: whitespace removed at both ends. *)
Definition strip (s : str) : str := rev (lstrip (rev (lstrip s))).

(** [s.split(sep)] for a one-character separator: always at least one
    field, empty fields kept. *)
Fixpoint split (sep : ascii) (s : str) : list str :=
  match s with
  | [] => [[]]
  | c :: s' =>
      if Ascii.eqb c sep then [] :: split sep s'
      else match split sep s' with
           | f :: fs => (c :: f) :: fs
           | [] => [[c]]
           end
  end.

(** ** Exceptions *)

Inductive error_msg :=
| IncorrectFormat (cols : nat)   (* 'Incorrect format; only {n} cols.' *)
| InvalidCigar (cigar : str)     (* 'Invalid cigar {cigar}.' *)
| NotUnique (tr_id : str)        (* 'Transcript {tr_id} is not unique.' *)
| OutsideQuery (coord : Z)       (* 'Query coord {c} is outside of the query.' *)
| InvalidLiteral (lit : str).    (* raised by int() on a malformed literal *)

Inductive exn := ValueError (msg : error_msg).

Inductive res (A : Type) :=
| Ok (a : A)
| Raise (e : exn).
Arguments Ok {A} a.
Arguments Raise {A} e.

Definition bind {A B} (m : res A) (k : A -> res B) : res B :=
  match m with
  | Ok a => k a
  | Raise e => Raise e
  end.

Notation "'let*' x ':=' m 'in' k" := (bind m (fun x => k))
  (at level 10, x name, m at level 100, k at level 200).

(** ** int() *)

Definition digit_val (c : ascii) : Z := Z.of_N (code c) - 48.

(** Value of a run of decimal digits, most significant first. *)
Definition digits_val (ds : str) : Z :=
  fold_left (fun acc c => 10 * acc + digit_val c) ds 0.

(** The digits of an integer literal with its underscores: a single
    underscore may stand between two digits. [prev] tells whether the
    previous character was a digit. Returns the digits read. *)
Fixpoint literal_digits (prev : bool) (s : str) : option str :=
  match s with
  | [] => if prev then Some [] else None
  | c :: s' =>
      if is_digit c then cons c <$> literal_digits true s'
      else if Ascii.eqb c "_" && prev then literal_digits false s'
      else None
  end.

(** [int(s)] on a string: surrounding whitespace, an optional sign, then
    decimal digits; anything else raises [ValueError]. The interpreter's
    limit on the length of a literal is left out. *)
Definition int (s : str) : res Z :=
  let body_val (b : str) :=
    match literal_digits false b with
    | Some ds => Ok (digits_val ds)
    | None => Raise (ValueError (InvalidLiteral s))
    end in
  match strip s with
  | "-" :: b => let* v := body_val b in Ok (- v)
  | "+" :: b => body_val b
  | b => body_val b
  end.

(** ** Regular expressions, as [re] reads the pattern of the validator *)

Inductive class_item :=
| CRange (lo hi : ascii)    (* [lo-hi] *)
| CChar (c : ascii).        (* a literal member of the class *)

Definition in_item (c : ascii) (i : class_item) : bool :=
  match i with
  | CRange lo hi => ((code lo <=? code c) && (code c <=? code hi))%N
  | CChar d => Ascii.eqb c d
  end.

Inductive regex :=
| Void
| Eps
| Class (items : list class_item)
| Cat (r1 r2 : regex)
| Alt (r1 r2 : regex)
| Star (r : regex).

(** [r+] *)
Definition Plus (r : regex) : regex := Cat r (Star r).

Fixpoint nullable (r : regex) : bool :=
  match r with
  | Void => false
  | Eps => true
  | Class _ => false
  | Cat r1 r2 => nullable r1 && nullable r2
  | Alt r1 r2 => nullable r1 || nullable r2
  | Star _ => true
  end.

Fixpoint deriv (c : ascii) (r : regex) : regex :=
  match r with
  | Void => Void
  | Eps => Void
  | Class items => if existsb (in_item c) items then Eps else Void
  | Cat r1 r2 =>
      if nullable r1 then Alt (Cat (deriv c r1) r2) (deriv c r2)
      else Cat (deriv c r1) r2
  | Alt r1 r2 => Alt (deriv c r1) (deriv c r2)
  | Star r1 => Cat (deriv c r1) (Star r1)
  end.

(** [r] matches some prefix of [s] and [k] holds of what follows it. *)
Fixpoint match_then (r : regex) (k : str -> bool) (s : str) : bool :=
  (nullable r && k s) ||
  match s with
  | [] => false
  | c :: s' => match_then (deriv c r) k s'
  end.

(** The anchor [$] (no MULTILINE flag): at the end of the string, or just
    before a newline that ends the string. *)
Definition at_dollar (rest : str) : bool :=
  match rest with
  | [] => true
  | ["010"] => true
  | _ => false
  end.

(** [bool(re.match('^' r '$', s))]: [re.match] tries position 0 only, where
    [^] holds. *)
Definition re_match_anchored (r : regex) (s : str) : bool :=
  match_then r at_dollar s.

(** ** The validator *)

(** The pattern [([0-9]+[M|I|D])+]: inside the brackets the bar is an
    ordinary member of the class. *)
Definition cigar_re : regex :=
  Plus (Cat (Plus (Class [CRange "0" "9"]))
            (Class [CChar "M"; CChar "|"; CChar "I"; CChar "|"; CChar "D"])).

Definition is_cigar_valid (cigar_str : str) : bool :=
  re_match_anchored cigar_re cigar_str.

(** ** The expander *)

(** [n * [char]]: the empty list when [n] is not positive. *)
Definition list_mul (n : Z) (char : ascii) : list ascii :=
  replicate (Z.to_nat n) char.

(** The body of [for char in cigar_str], with the two variables it
    updates. *)
Fixpoint cigar_loop (cigar_str : str) (cigar_list : list ascii)
    (num_str : str) : res (list ascii) :=
  match cigar_str with
  | [] => Ok cigar_list
  | char :: rest =>
      if isnumeric char then
        cigar_loop rest cigar_list (num_str ++ [char])
      else
        let* n := int num_str in
        cigar_loop rest (cigar_list ++ list_mul n char) []
  end.

Definition cigar_str_to_list (cigar_str : str) : res (list ascii) :=
  cigar_loop cigar_str [] [].

(** ** The resolver *)

(** What [get_genome_pos] returns: an integer or the string ['NA']. *)
Inductive gpos :=
| At (genome_pos : Z)
| NA.

(** [cigar_list.count(x)] *)
Definition count (x : ascii) (cigar_list : list ascii) : Z :=
  Z.of_nat (count_occ ascii_dec cigar_list x).

(** The loop [for pos in cigar_list] with its two cursors; [break] leaves
    the loop for the final [return genome_pos]. *)
Fixpoint pos_loop (transcript_coord : Z) (cigar_list : list ascii)
    (transcript_idx genome_pos : Z) : gpos :=
  match cigar_list with
  | [] => At genome_pos
  | pos :: rest =>
      if transcript_idx <? transcript_coord then
        if Ascii.eqb pos "M" then
          pos_loop transcript_coord rest (transcript_idx + 1) (genome_pos + 1)
        else if Ascii.eqb pos "D" then
          pos_loop transcript_coord rest transcript_idx (genome_pos + 1)
        else if Ascii.eqb pos "I" then
          if transcript_idx + 1 =? transcript_coord then NA
          else pos_loop transcript_coord rest (transcript_idx + 1) genome_pos
        else pos_loop transcript_coord rest transcript_idx genome_pos
      else At genome_pos
  end.

Definition transcript_len (cigar_list : list ascii) : Z :=
  Z.of_nat (length cigar_list) - count "D" cigar_list.

Definition get_genome_pos (transcript_coord : Z) (cigar_str : str)
    (start_pos : Z) : res gpos :=
  let* cigar_list := cigar_str_to_list cigar_str in
  let genome_pos := start_pos - 1 in
  let transcript_idx := - 1 in
  if transcript_coord >=? transcript_len cigar_list then
    Raise (ValueError (OutsideQuery transcript_coord))
  else Ok (pos_loop transcript_coord cigar_list transcript_idx genome_pos).

(** The scan run to completion: the same loop without its [break]; an
    entry met once the transcript cursor has reached the coordinate is
    passed over. *)
Fixpoint pos_loop_full (transcript_coord : Z) (cigar_list : list ascii)
    (transcript_idx genome_pos : Z) : gpos :=
  match cigar_list with
  | [] => At genome_pos
  | pos :: rest =>
      if transcript_idx <? transcript_coord then
        if Ascii.eqb pos "M" then
          pos_loop_full transcript_coord rest (transcript_idx + 1) (genome_pos + 1)
        else if Ascii.eqb pos "D" then
          pos_loop_full transcript_coord rest transcript_idx (genome_pos + 1)
        else if Ascii.eqb pos "I" then
          if transcript_idx + 1 =? transcript_coord then NA
          else pos_loop_full transcript_coord rest (transcript_idx + 1) genome_pos
        else pos_loop_full transcript_coord rest transcript_idx genome_pos
      else pos_loop_full transcript_coord rest transcript_idx genome_pos
  end.

Definition get_genome_pos_full (transcript_coord : Z) (cigar_str : str)
    (start_pos : Z) : res gpos :=
  let* cigar_list := cigar_str_to_list cigar_str in
  if transcript_coord >=? transcript_len cigar_list then
    Raise (ValueError (OutsideQuery transcript_coord))
  else Ok (pos_loop_full transcript_coord cigar_list (- 1) (start_pos - 1)).

(** ** The resolver over a store of list objects

    [cigar_list] is the one mutable object the resolver works on:
    [list()] makes it and [extend] changes it in place. Here the list
    objects alive are kept in a store, by address, and every call runs
    from the store the calls before it have left. *)

Abbreviation store := (list (list ascii)).

(** [list()] *)
Definition new_list (h : store) : nat * store := (length h, h ++ [[]]).

(** [obj.extend(items)], [obj] the object at address [a] *)
Definition extend (a : nat) (items : list ascii) (h : store) : store :=
  match h !! a with
  | Some obj => <[a := obj ++ items]> h
  | None => h
  end.

Definition deref (a : nat) (h : store) : list ascii := default [] (h !! a).

Fixpoint cigar_loop_st (cigar_str : str) (cigar_list : nat) (num_str : str)
    (h : store) : res nat * store :=
  match cigar_str with
  | [] => (Ok cigar_list, h)
  | char :: rest =>
      if isnumeric char then
        cigar_loop_st rest cigar_list (num_str ++ [char]) h
      else
        match int num_str with
        | Ok n =>
            cigar_loop_st rest cigar_list []
              (extend cigar_list (list_mul n char) h)
        | Raise e => (Raise e, h)
        end
  end.

Definition cigar_str_to_list_st (cigar_str : str) (h : store)
    : res nat * store :=
  let (cigar_list, h1) := new_list h in
  cigar_loop_st cigar_str cigar_list [] h1.

Definition get_genome_pos_st (transcript_coord : Z) (cigar_str : str)
    (start_pos : Z) (h : store) : res gpos * store :=
  match cigar_str_to_list_st cigar_str h with
  | (Ok a, h1) =>
      let cigar_list := deref a h1 in
      let genome_pos := start_pos - 1 in
      let transcript_idx := - 1 in
      if transcript_coord >=? transcript_len cigar_list then
        (Raise (ValueError (OutsideQuery transcript_coord)), h1)
      else
        (Ok (pos_loop transcript_coord cigar_list transcript_idx genome_pos), h1)
  | (Raise e, h1) => (Raise e, h1)
  end.

(** Queries against one encoding and start position, one call after the
    other on the same store; the outcome of each call is kept. *)
Fixpoint resolve_each (coords : list Z) (cigar_str : str) (start_pos : Z)
    (h : store) : list (res gpos) * store :=
  match coords with
  | [] => ([], h)
  | transcript_coord :: rest =>
      let (r, h1) := get_genome_pos_st transcript_coord cigar_str start_pos h in
      let (rs, h2) := resolve_each rest cigar_str start_pos h1 in
      (r :: rs, h2)
  end.

(** ** The transcript table *)

Record transcript := {
  gen_chrom : str;
  gen_start : Z;
  cigar : str
}.

(** [[i.strip() for i in line.split('\t')]] *)
Definition line_fields (line : str) : list str :=
  strip <$> split "009" line.

(** The body of [for line in tr_f]; [lines] are the lines the file yields,
    each with its line end. *)
Fixpoint load_lines (lines : list str) (transcripts : gmap str transcript)
    : res (gmap str transcript) :=
  match lines with
  | [] => Ok transcripts
  | line :: rest =>
      let fields := line_fields line in
      match fields with
      | [tr_id; chrom; pos; cigar] =>
          if negb (is_cigar_valid cigar) then
            Raise (ValueError (InvalidCigar cigar))
          else
            match transcripts !! tr_id with
            | None =>
                let* start := int pos in
                load_lines rest
                  (<[tr_id := {| gen_chrom := chrom; gen_start := start;
                                 cigar := cigar |}]> transcripts)
            | Some _ => Raise (ValueError (NotUnique tr_id))
            end
      | _ => Raise (ValueError (IncorrectFormat (length fields)))
      end
  end.

Definition get_transcript_dict (lines : list str) : res (gmap str transcript) :=
  load_lines lines ∅.

(** ** Denotation of regular expressions and of encodings *)

(** The words a regular expression denotes. *)
Inductive lang : regex -> str -> Prop :=
| lang_eps : lang Eps []
| lang_class items c :
    existsb (in_item c) items = true -> lang (Class items) [c]
| lang_cat r1 r2 w1 w2 :
    lang r1 w1 -> lang r2 w2 -> lang (Cat r1 r2) (w1 ++ w2)
| lang_alt_l r1 r2 w : lang r1 w -> lang (Alt r1 r2) w
| lang_alt_r r1 r2 w : lang r2 w -> lang (Alt r1 r2) w
| lang_star_nil r : lang (Star r) []
| lang_star_app r w1 w2 :
    lang r w1 -> lang (Star r) w2 -> lang (Star r) (w1 ++ w2).

(** An encoding as a sequence of runs: the characters of the run length
    and the operator character. *)
Definition run : Type := str * ascii.

Definition render_run (r : run) : str := r.1 ++ [r.2].

(** The string that spells a sequence of runs. *)
Definition render (runs : list run) : str := concat (render_run <$> runs).

(** One run expanded, and a sequence of runs expanded in order. *)
Definition expand_run (r : run) : list ascii :=
  replicate (Z.to_nat (digits_val r.1)) r.2.

Definition expand_runs (runs : list run) : list ascii :=
  concat (expand_run <$> runs).

(** A run length is one or more of the characters ['0'] .. ['9']. *)
Definition is_count (ds : str) : Prop :=
  ds <> [] /\ Forall (fun c => is_digit c = true) ds.

(** A run the expander reads as such: a run length and any character
    that [isnumeric] rejects. *)
Definition wf_run (r : run) : Prop :=
  is_count r.1 /\ isnumeric r.2 = false.

(** A run of the grammar [<digits><operator>], operator among M, I, D. *)
Definition mid_run (r : run) : Prop :=
  is_count r.1 /\ (r.2 = "M" \/ r.2 = "I" \/ r.2 = "D").

(** A run the pattern of the validator admits: its class has the bar too. *)
Definition re_run (r : run) : Prop :=
  is_count r.1 /\ (r.2 = "M" \/ r.2 = "I" \/ r.2 = "D" \/ r.2 = "|").

(** An encoding as the loader takes it into a record: the field has been
    stripped and the validator has accepted it. *)
Definition accepted (cigar_str : str) : Prop :=
  strip cigar_str = cigar_str /\ is_cigar_valid cigar_str = true.

(** The genome positions a stretch of the expansion covers: its entries
    other than insertions. *)
Definition genome_len (cigar_list : list ascii) : Z :=
  Z.of_nat (length cigar_list) - count "I" cigar_list.

(** The entries of an expansion that are not deletions. *)
Definition non_deletions (cigar_list : list ascii) : list ascii :=
  filter (fun pos => pos <> "D") cigar_list.

Definition is_mid (pos : ascii) : Prop := pos = "M" \/ pos = "I" \/ pos = "D".

Definition range_error (transcript_coord : Z) : exn :=
  ValueError (OutsideQuery transcript_coord).

(** The columns of a line of the table, as the loader names them. *)
Definition columns (line : str) : nat := length (line_fields line).

Definition field (n : nat) (line : str) : str := nth n (line_fields line) [].

Definition line_id : str -> str := field 0.
Definition line_chrom : str -> str := field 1.
Definition line_pos : str -> str := field 2.
Definition line_cigar : str -> str := field 3.

Definition line_record (line : str) (start : Z) : transcript :=
  {| gen_chrom := line_chrom line; gen_start := start;
     cigar := line_cigar line |}.

(** A line with a column count other than 4, an encoding the validator
    rejects, or the identifier of one of the lines [pre] before it. *)
Definition malformed (pre : list str) (line : str) : Prop :=
  columns line <> 4%nat \/
  is_cigar_valid (line_cigar line) = false \/
  line_id line ∈ line_id <$> pre.

(** A line the loader stops at: malformed, or with a start position that
    [int] does not read. *)
Definition rejected (pre : list str) (line : str) : Prop :=
  malformed pre line \/ exists e, int (line_pos line) = Raise e.

(** The transcript table of the tests: two lines of four tab-separated
    columns. *)
Definition tr_table : list str :=
  [py "TR1" ++ ["009"] ++ py "CHR1" ++ ["009"] ++ py "3" ++ ["009"]
     ++ py "8M7D6M2I2M11D7M" ++ ["010"];
   py "TR2" ++ ["009"] ++ py "CHR2" ++ ["009"] ++ py "10" ++ ["009"]
     ++ py "20M" ++ ["010"]].

(** ** The query driver *)

(** What ends a run of [query_transcript]: an exception of the functions
    it calls, its own [ValueError] on a query line whose column count is
    not 2, or the [KeyError] of a lookup the table does not answer. *)
Inductive query_exn :=
| Inner (e : exn)
| QueryFormat (cols : nat)    (* ValueError 'Incorrect format; {n} cols.' *)
| KeyError (tr_id : str).

(** A row handed to [out_writer.writerow]:
    [[tr_id, tr_coord, gen_chrom, gen_pos]]. *)
Record row := {
  row_id : str;
  row_coord : Z;
  row_chrom : str;
  row_pos : gpos
}.

(** The body of [for line in query_f]. [written] are the rows written so
    far; the result is the rows written when the loop ends and the
    exception that ended it, if one did. *)
Fixpoint query_loop (transcripts : gmap str transcript) (lines : list str)
    (written : list row) : list row * option query_exn :=
  match lines with
  | [] => (written, None)
  | line :: rest =>
      let fields := line_fields line in
      match fields with
      | [tr_id; coord_field] =>
          match int coord_field with
          | Raise e => (written, Some (Inner e))
          | Ok tr_coord =>
              match transcripts !! tr_id with
              | None => (written, Some (KeyError tr_id))
              | Some t =>
                  match get_genome_pos tr_coord (cigar t) (gen_start t) with
                  | Raise e => (written, Some (Inner e))
                  | Ok gen_pos =>
                      query_loop transcripts rest
                        (written ++ [{| row_id := tr_id; row_coord := tr_coord;
                                        row_chrom := gen_chrom t;
                                        row_pos := gen_pos |}])
                  end
              end
          end
      | _ => (written, Some (QueryFormat (length fields)))
      end
  end.

(** [query_transcript] on the lines of the two input files. The output
    file is opened once the table is loaded: [None] when it never was,
    otherwise the rows written to it. *)
Definition query_transcript (transcript_lines query_lines : list str)
    : option (list row) * option query_exn :=
  match get_transcript_dict transcript_lines with
  | Raise e => (None, Some (Inner e))
  | Ok transcripts =>
      let (rows, e) := query_loop transcripts query_lines [] in
      (Some rows, e)
  end.

(** [main] hands its three arguments to [query_transcript]. *)
Definition main (transcript_lines query_lines : list str)
    : option (list row) * option query_exn :=
  query_transcript transcript_lines query_lines.

(** The query file of the tests. *)
Definition query_table : list str :=
  [py "TR1" ++ ["009"] ++ py "4" ++ ["010"];
   py "TR2" ++ ["009"] ++ py "0" ++ ["010"];
   py "TR1" ++ ["009"] ++ py "13" ++ ["010"];
   py "TR2" ++ ["009"] ++ py "10" ++ ["010"]].

(** ** Notions the further properties are stated with *)

(** A genomic position moved by [k]; the sentinel stays. *)
Definition gpos_shift (k : Z) (g : gpos) : gpos :=
  match g with
  | At z => At (z + k)
  | NA => NA
  end.

Definition res_map {A B} (f : A -> B) (m : res A) : res B :=
  match m with
  | Ok a => Ok (f a)
  | Raise e => Raise e
  end.

(** The transcript positions and the genome positions a sequence of runs
    covers, from the run lengths alone. *)
Definition runs_transcript_len (runs : list run) : Z :=
  foldr (fun r acc =>
           (if Ascii.eqb r.2 "D" then 0 else digits_val r.1) + acc) 0 runs.

Definition runs_genome_len (runs : list run) : Z :=
  foldr (fun r acc =>
           (if Ascii.eqb r.2 "I" then 0 else digits_val r.1) + acc) 0 runs.

(** The characters the pattern of the validator lets through. *)
Definition is_op (c : ascii) : Prop :=
  c = "M" \/ c = "I" \/ c = "D" \/ c = "|".

(** A line of the table that is read without error when no line before
    it has its identifier. *)
Definition line_ok (line : str) : Prop :=
  columns line = 4%nat /\ is_cigar_valid (line_cigar line) = true /\
  exists start, int (line_pos line) = Ok start.

(** The answer [r] to a query line, given the table [d]. *)
Definition answers (d : gmap str transcript) (line : str) (r : row) : Prop :=
  exists coord_field t,
    line_fields line = [row_id r; coord_field] /\
    int coord_field = Ok (row_coord r) /\
    d !! row_id r = Some t /\
    row_chrom r = gen_chrom t /\
    get_genome_pos (row_coord r) (cigar t) (gen_start t) = Ok (row_pos r).

(** The mapping the loader makes of it. *)
Definition tr_dict : gmap str transcript :=
  <[py "TR2" := {| gen_chrom := py "CHR2"; gen_start := 10; cigar := py "20M" |}]>
    (<[py "TR1" := {| gen_chrom := py "CHR1"; gen_start := 3;
                      cigar := py "8M7D6M2I2M11D7M" |}]> ∅).

(** * Properties *)

Example is_cigar_valid_tr1 : is_cigar_valid (py "8M7D6M2I2M11D7M") = true.
Proof. reflexivity. Qed.
Example is_cigar_valid_20M : is_cigar_valid (py "20M") = true.
Proof. reflexivity. Qed.
Example is_cigar_valid_N : is_cigar_valid (py "2M3N7D") = false.
Proof. reflexivity. Qed.
Example is_cigar_valid_2M3 : is_cigar_valid (py "2M3") = false.
Proof. reflexivity. Qed.
Example is_cigar_valid_M3 : is_cigar_valid (py "M3") = false.
Proof. reflexivity. Qed.
Example is_cigar_valid_empty : is_cigar_valid (py "") = false.
Proof. reflexivity. Qed.

Example expand_1M : cigar_str_to_list (py "1M") = Ok (py "M").
Proof. reflexivity. Qed.
Example expand_2D1M : cigar_str_to_list (py "2D1M") = Ok (py "DDM").
Proof. reflexivity. Qed.
Example expand_tr1 :
  cigar_str_to_list (py "8M7D6M2I2M11D7M")
  = Ok (py "MMMMMMMMDDDDDDDMMMMMMIIMMDDDDDDDDDDDMMMMMMM").
Proof. reflexivity. Qed.
Example resolve_tr1_0_4 : get_genome_pos 4 (py "8M7D6M2I2M11D7M") 0 = Ok (At 4).
Proof. reflexivity. Qed.
Example resolve_tr1_0_8 : get_genome_pos 8 (py "8M7D6M2I2M11D7M") 0 = Ok (At 15).
Proof. reflexivity. Qed.
Example resolve_ins_6 : get_genome_pos 6 (py "3M2D1I1M1I2M") 2 = Ok (At 8).
Proof. reflexivity. Qed.
Example resolve_tr1_17 : get_genome_pos 17 (py "8M7D6M2I2M11D7M") 3 = Ok (At 25).
Proof. reflexivity. Qed.
Example resolve_tr1_8 : get_genome_pos 8 (py "8M7D6M2I2M11D7M") 3 = Ok (At 18).
Proof. reflexivity. Qed.
Example resolve_tr1_13 : get_genome_pos 13 (py "8M7D6M2I2M11D7M") 3 = Ok (At 23).
Proof. reflexivity. Qed.
Example resolve_bar : get_genome_pos 1 (py "3|") 5 = Ok (At 4).
Proof. reflexivity. Qed.
Example valid_newline : is_cigar_valid (py "3M" ++ ["010"]) = true.
Proof. reflexivity. Qed.
Example expand_newline : exists e, cigar_str_to_list (py "3M" ++ ["010"]) = Raise e.
Proof. eexists. reflexivity. Qed.
Example int_examples :
  int (py " 12 ") = Ok 12 /\ int (py "-007") = Ok (-7) /\ int (py "1_000") = Ok 1000 /\
  (exists e, int (py "1__0") = Raise e) /\ (exists e, int (py "") = Raise e) /\
  (exists e, int (py "x") = Raise e) /\ (exists e, int (py "+-1") = Raise e).
Proof. repeat split; try reflexivity; eexists; reflexivity. Qed.

Example load_table :
  get_transcript_dict tr_table
  = Ok (<[py "TR2" := {| gen_chrom := py "CHR2"; gen_start := 10; cigar := py "20M" |}]>
        (<[py "TR1" := {| gen_chrom := py "CHR1"; gen_start := 3; cigar := py "8M7D6M2I2M11D7M" |}]> ∅)).
Proof. reflexivity. Qed.

(** ** Regular expressions: the matcher decides the denotation *)

Lemma lang_nil_nullable r w : lang r w -> w = [] -> nullable r = true.
Proof.
  induction 1 as [| | r1 r2 w1 w2 _ IH1 _ IH2 | | | |]; intros Hw; simpl; try done.
  - apply app_eq_nil in Hw as [-> ->]. by rewrite IH1, IH2.
  - by rewrite IHlang.
  - rewrite IHlang by done. apply orb_true_r.
Qed.

Lemma nullable_lang r : nullable r = true <-> lang r [].
Proof.
  split; [| intros H; by eapply lang_nil_nullable].
  induction r as [| | | r1 IH1 r2 IH2 | r1 IH1 r2 IH2 |]; simpl; intros H; try done.
  - constructor.
  - apply andb_true_iff in H as [H1 H2].
    change (@nil ascii) with (@nil ascii ++ []). constructor; auto.
  - apply orb_true_iff in H as [H|H]; [apply lang_alt_l | apply lang_alt_r]; auto.
  - constructor.
Qed.

Lemma lang_star_cons r c w :
  lang (Star r) (c :: w) ->
  exists w1 w2, w = w1 ++ w2 /\ lang r (c :: w1) /\ lang (Star r) w2.
Proof.
  intros H. remember (Star r) as sr eqn:Hsr. remember (c :: w) as cw eqn:Hcw.
  revert w Hcw. induction H as [| | | | | |r' w1 w2 H1 _ H2 IH2]; intros v Hv; try done.
  injection Hsr as ->. destruct w1 as [|c' w1]; simpl in Hv.
  - subst w2. by apply IH2.
  - injection Hv as -> <-. by exists w1, w2.
Qed.

Lemma lang_cat_inv r1 r2 w :
  lang (Cat r1 r2) w -> exists w1 w2, w = w1 ++ w2 /\ lang r1 w1 /\ lang r2 w2.
Proof. inversion 1; subst; eauto. Qed.

Lemma lang_alt_inv r1 r2 w : lang (Alt r1 r2) w -> lang r1 w \/ lang r2 w.
Proof. inversion 1; subst; eauto. Qed.

Lemma lang_class_inv items w :
  lang (Class items) w -> exists c, w = [c] /\ existsb (in_item c) items = true.
Proof. inversion 1; subst; eauto. Qed.

Lemma deriv_lang c r w : lang (deriv c r) w <-> lang r (c :: w).
Proof.
  revert w. induction r as [| | items | r1 IH1 r2 IH2 | r1 IH1 r2 IH2 | r IH];
    intros w; simpl.
  - split; inversion 1.
  - split; inversion 1.
  - split.
    + destruct (existsb (in_item c) items) eqn:E; inversion 1; subst. by constructor.
    + intros H. apply lang_class_inv in H as (c' & [= -> ->] & ->). constructor.
  - assert (Hcat : forall v, lang (Cat (deriv c r1) r2) v -> lang (Cat r1 r2) (c :: v)).
    { intros v H. apply lang_cat_inv in H as (w1 & w2 & -> & H1 & H2).
      rewrite app_comm_cons. constructor; [by apply IH1 | done]. }
    split.
    + destruct (nullable r1) eqn:E; [| by apply Hcat].
      intros H. apply lang_alt_inv in H as [H|H]; [by apply Hcat |].
      change (c :: w) with ([] ++ c :: w). constructor; [by apply nullable_lang | by apply IH2].
    + intros H. apply lang_cat_inv in H as (w1 & w2 & Heq & H1 & H2).
      destruct w1 as [|c' w1]; simpl in Heq.
      * subst w2. rewrite (lang_nil_nullable _ _ H1 eq_refl).
        apply lang_alt_r. by apply IH2.
      * injection Heq as <- ->.
        assert (lang (Cat (deriv c r1) r2) (w1 ++ w2)) by (constructor; [by apply IH1 | done]).
        destruct (nullable r1); [by apply lang_alt_l | done].
  - split; intros H; apply lang_alt_inv in H as [H|H].
    + apply lang_alt_l. by apply IH1.
    + apply lang_alt_r. by apply IH2.
    + apply lang_alt_l. by apply IH1.
    + apply lang_alt_r. by apply IH2.
  - split.
    + intros H. apply lang_cat_inv in H as (w1 & w2 & -> & H1 & H2).
      rewrite app_comm_cons. constructor; [by apply IH | done].
    + intros H. apply lang_star_cons in H as (w1 & w2 & -> & H1 & H2).
      constructor; [by apply IH | done].
Qed.

Lemma match_then_spec r k s :
  match_then r k s = true <->
  exists p rest, s = p ++ rest /\ lang r p /\ k rest = true.
Proof.
  revert r. induction s as [|c s IH]; intros r; simpl.
  - rewrite orb_false_r, andb_true_iff, nullable_lang. split.
    + intros [H1 H2]. by exists [], [].
    + intros (p & rest & Heq & H1 & H2). symmetry in Heq.
      apply app_eq_nil in Heq as [-> ->]. done.
  - rewrite orb_true_iff, andb_true_iff, nullable_lang, IH. split.
    + intros [[H1 H2] | (p & rest & -> & H1 & H2)].
      * by exists [], (c :: s).
      * exists (c :: p), rest. split; [done |]. split; [by apply deriv_lang | done].
    + intros (p & rest & Heq & H1 & H2). destruct p as [|c' p]; simpl in Heq.
      * left. by subst rest.
      * right. injection Heq as <- ->. exists p, rest.
        split; [done |]. split; [by apply deriv_lang | done].
Qed.

Lemma lang_star_concat r w :
  lang (Star r) w <-> exists ws, Forall (lang r) ws /\ w = concat ws.
Proof.
  split.
  - intros H. remember (Star r) as sr eqn:Hsr.
    induction H as [| | | | | |r' w1 w2 H1 _ H2 IH2]; try done.
    + by exists [].
    + injection Hsr as ->. destruct (IH2 eq_refl) as (ws & Hws & ->).
      exists (w1 :: ws). split; [by constructor | done].
  - intros (ws & Hws & ->). induction Hws; simpl; by constructor.
Qed.

Lemma lang_plus r w :
  lang (Plus r) w <->
  exists w1 ws, lang r w1 /\ Forall (lang r) ws /\ w = concat (w1 :: ws).
Proof.
  unfold Plus. split.
  - intros H. apply lang_cat_inv in H as (w1 & w2 & -> & H1 & H2).
    apply lang_star_concat in H2 as (ws & Hws & ->). by exists w1, ws.
  - intros (w1 & ws & H1 & Hws & ->). simpl. constructor; [done |].
    apply lang_star_concat. by exists ws.
Qed.

Lemma concat_singletons (P : ascii -> Prop) (Q : str -> Prop) ws :
  (forall w, Q w -> exists c, w = [c] /\ P c) ->
  Forall Q ws -> Forall P (concat ws).
Proof.
  intros HQ. induction 1 as [|w ws Hw _ IH]; simpl; [constructor |].
  apply HQ in Hw as (c & -> & Hc). by constructor.
Qed.

Lemma lang_plus_class items w :
  lang (Plus (Class items)) w <->
  w <> [] /\ Forall (fun c => existsb (in_item c) items = true) w.
Proof.
  rewrite lang_plus. split.
  - intros (w1 & ws & H1 & Hws & ->). simpl.
    apply lang_class_inv in H1 as (c & -> & Hc). split; [done |].
    constructor; [done |].
    eapply concat_singletons; [| exact Hws]. apply lang_class_inv.
  - intros [Hne Hall]. destruct w as [|c w]; [done |].
    apply Forall_cons in Hall as [Hc Hw].
    exists [c], ((fun x => [x]) <$> w). split; [by constructor |]. split.
    + clear Hne Hc. induction Hw; simpl; constructor; [by constructor | done].
    + simpl. f_equal. clear. induction w as [|a w IH]; csimpl; [done | by f_equal].
Qed.

Lemma digit_class c : existsb (in_item c) [CRange "0" "9"] = is_digit c.
Proof. simpl. apply orb_false_r. Qed.

Lemma op_class c :
  existsb (in_item c)
    [CChar "M"; CChar "|"; CChar "I"; CChar "|"; CChar "D"] = true <->
  c = "M" \/ c = "I" \/ c = "D" \/ c = "|".
Proof.
  simpl. rewrite !orb_true_iff, !Ascii.eqb_eq. intuition discriminate.
Qed.

Lemma lang_group w :
  lang (Cat (Plus (Class [CRange "0" "9"]))
            (Class [CChar "M"; CChar "|"; CChar "I"; CChar "|"; CChar "D"])) w
  <-> exists r, re_run r /\ w = render_run r.
Proof.
  split.
  - intros H. apply lang_cat_inv in H as (ds & o & -> & Hd & Ho).
    apply lang_plus_class in Hd as [Hne Hd].
    apply lang_class_inv in Ho as (c & -> & Hc). apply op_class in Hc.
    exists (ds, c). split; [| done]. split; [split; [done |] | done].
    eapply Forall_impl; [exact Hd |]. intros x Hx. by rewrite <- digit_class.
  - intros ([ds c] & [[Hne Hd] Hc] & ->). unfold render_run; simpl in *.
    constructor.
    + apply lang_plus_class. split; [done |].
      eapply Forall_impl; [exact Hd |]. intros x Hx. by rewrite digit_class.
    + constructor. by apply op_class.
Qed.

(** The pattern denotes the non-empty sequences of runs. *)
Lemma lang_cigar_re w :
  lang cigar_re w <->
  exists runs, runs <> [] /\ Forall re_run runs /\ w = render runs.
Proof.
  unfold cigar_re. rewrite lang_plus. split.
  - intros (w1 & ws & H1 & Hws & ->).
    assert (Hall : Forall (fun v => exists r, re_run r /\ v = render_run r) (w1 :: ws)).
    { constructor; [by apply lang_group |].
      eapply Forall_impl; [exact Hws |]. intros v. apply lang_group. }
    clear H1 Hws.
    assert (exists runs, Forall re_run runs /\ w1 :: ws = render_run <$> runs)
      as (runs & Hruns & Heq).
    { induction Hall as [|v vs (r & Hr & ->) _ (runs & Hruns & ->)].
      - by exists [].
      - exists (r :: runs). split; [by constructor | done]. }
    exists runs. split; [by destruct runs |]. split; [done |].
    unfold render. by rewrite <- Heq.
  - intros (runs & Hne & Hruns & ->). destruct runs as [|r runs]; [done |].
    apply Forall_cons in Hruns as [Hr Hruns].
    exists (render_run r), (render_run <$> runs).
    split; [apply lang_group; eauto |]. split; [| done].
    clear Hne Hr. induction Hruns; simpl; constructor; [| done].
    apply lang_group; eauto.
Qed.

Lemma at_dollar_spec rest :
  at_dollar rest = true <-> rest = [] \/ rest = ["010"%char].
Proof.
  destruct rest as [|c [|c' rest]]; simpl.
  - tauto.
  - destruct (Ascii.eqb_spec c "010"); [subst; simpl; tauto |].
    split; [| intros [H|H]; [done | congruence]].
    destruct c as [[] [] [] [] [] [] [] []]; simpl; try discriminate. congruence.
  - split; [| intros [H|H]; discriminate].
    destruct c as [[] [] [] [] [] [] [] []]; simpl; discriminate.
Qed.

(** What the validator accepts: a non-empty sequence of runs of the
    pattern, with or without a newline after it. *)
Theorem is_cigar_valid_spec s :
  is_cigar_valid s = true <->
  exists runs, runs <> [] /\ Forall re_run runs /\
    (s = render runs \/ s = render runs ++ ["010"%char]).
Proof.
  unfold is_cigar_valid, re_match_anchored. rewrite match_then_spec. split.
  - intros (p & rest & -> & Hp & Hrest).
    apply lang_cigar_re in Hp as (runs & Hne & Hruns & ->).
    apply at_dollar_spec in Hrest as [-> | ->]; exists runs;
      (split; [done |]); (split; [done |]).
    + left. by rewrite app_nil_r.
    + by right.
  - intros (runs & Hne & Hruns & [-> | ->]).
    + exists (render runs), []. rewrite app_nil_r. split; [done |].
      split; [apply lang_cigar_re; eauto | done].
    + exists (render runs), ["010"%char]. split; [done |].
      split; [apply lang_cigar_re; eauto | done].
Qed.

(** ** Characters, [strip] and [int] *)

Lemma digit_not_space c : is_digit c = true -> isspace c = false.
Proof. destruct c as [[] [] [] [] [] [] [] []]; vm_compute; congruence. Qed.

Lemma digit_isnumeric c : is_digit c = true -> isnumeric c = true.
Proof. unfold isnumeric. by intros ->. Qed.

Lemma lstrip_head s c t : lstrip s = c :: t -> isspace c = false.
Proof.
  induction s as [|a s IH]; simpl; [done |].
  destruct (isspace a) eqn:E; [done |]. by intros [= <- _].
Qed.

Lemma lstrip_id c s : isspace c = false -> lstrip (c :: s) = c :: s.
Proof. simpl. by intros ->. Qed.

Lemma strip_id s :
  (forall c t, s = c :: t -> isspace c = false) ->
  (forall c t, s = t ++ [c] -> isspace c = false) ->
  strip s = s.
Proof.
  intros Hhd Hlast. unfold strip. destruct s as [|c s]; [done |].
  rewrite lstrip_id by eauto.
  destruct (rev (c :: s)) as [|d u] eqn:E.
  - simpl. apply (f_equal (@rev ascii)) in E. rewrite rev_involutive in E. done.
  - rewrite lstrip_id, <- E, rev_involutive; [done |].
    apply (Hlast d (rev u)). apply (f_equal (@rev ascii)) in E.
    rewrite rev_involutive in E. by rewrite E.
Qed.

Lemma strip_no_newline r : strip (r ++ ["010"%char]) <> r ++ ["010"%char].
Proof.
  unfold strip. intros H. apply (f_equal (@rev ascii)) in H.
  rewrite rev_involutive, (rev_app_distr r) in H. simpl in H.
  by apply lstrip_head in H.
Qed.

Lemma strip_count ds : is_count ds -> strip ds = ds.
Proof.
  intros [_ Hd]. apply strip_id.
  - intros c t ->. apply digit_not_space. by apply Forall_cons in Hd as [? _].
  - intros c t ->. apply digit_not_space.
    apply Forall_app in Hd as [_ Hc]. by apply Forall_cons in Hc as [? _].
Qed.

Lemma literal_digits_count prev ds :
  Forall (fun c => is_digit c = true) ds -> prev = true \/ ds <> [] ->
  literal_digits prev ds = Some ds.
Proof.
  intros Hd. revert prev. induction Hd as [|c ds Hc _ IH]; intros prev Hp; simpl.
  - destruct Hp as [-> | ?]; done.
  - rewrite Hc, IH by auto. done.
Qed.

(** [int] reads a run length as its decimal value. *)
Lemma int_count ds : is_count ds -> int ds = Ok (digits_val ds).
Proof.
  intros Hds. unfold int. rewrite (strip_count _ Hds).
  destruct Hds as [Hne Hd]. destruct ds as [|c ds]; [done |].
  pose proof (literal_digits_count false (c :: ds) Hd (or_intror Hne)) as Hl.
  apply Forall_cons in Hd as [Hc _].
  destruct c as [[] [] [] [] [] [] [] []]; try discriminate Hc; by rewrite Hl.
Qed.

Lemma digits_val_nonneg_from ds acc :
  0 <= acc -> Forall (fun c => is_digit c = true) ds ->
  0 <= fold_left (fun a c => 10 * a + digit_val c) ds acc.
Proof.
  intros Hacc Hd. revert acc Hacc. induction Hd as [|c ds Hc _ IH]; intros acc Hacc; simpl.
  - done.
  - apply IH. unfold is_digit in Hc. apply andb_true_iff in Hc as [Hlo _].
    apply N.leb_le in Hlo. unfold digit_val. lia.
Qed.

(** ** The expander on a sequence of runs *)

(** A run expands to as many entries as its run length says. *)
Lemma expand_run_length r :
  is_count r.1 -> Z.of_nat (length (expand_run r)) = digits_val r.1.
Proof.
  intros [_ Hd]. unfold expand_run. rewrite length_replicate.
  apply Z2Nat.id. by apply digits_val_nonneg_from.
Qed.

Lemma cigar_loop_run ds op rest acc num :
  Forall (fun c => is_digit c = true) ds -> is_count (num ++ ds) ->
  isnumeric op = false ->
  cigar_loop (ds ++ op :: rest) acc num
  = cigar_loop rest (acc ++ list_mul (digits_val (num ++ ds)) op) [].
Proof.
  intros Hd. revert num. induction Hd as [|c ds Hc _ IH]; intros num Hn Hop; simpl.
  - rewrite Hop. rewrite app_nil_r in *. by rewrite (int_count _ Hn).
  - rewrite (digit_isnumeric _ Hc). rewrite IH; [| by rewrite <- app_assoc | done].
    by rewrite <- app_assoc.
Qed.

Lemma cigar_loop_render runs acc :
  Forall wf_run runs ->
  cigar_loop (render runs) acc [] = Ok (acc ++ expand_runs runs).
Proof.
  intros Hruns. revert acc. induction Hruns as [|[ds op] runs [Hds Hop] _ IH]; intros acc.
  - simpl. by rewrite app_nil_r.
  - unfold render, expand_runs; csimpl. unfold render_run at 1; simpl in *.
    rewrite <- app_assoc. simpl.
    rewrite cigar_loop_run by (try apply Hds; done). simpl.
    fold (render runs). rewrite IH. by rewrite <- app_assoc.
Qed.

Lemma re_run_wf r : re_run r -> wf_run r.
Proof.
  intros [Hc Hop]. split; [done |].
  destruct Hop as [-> | [-> | [-> | ->]]]; reflexivity.
Qed.

Lemma mid_run_re r : mid_run r -> re_run r.
Proof. intros [Hc Hop]. split; [done | tauto]. Qed.

(** An accepted encoding spells a non-empty sequence of runs of the
    pattern. *)
Lemma accepted_runs s :
  accepted s <-> exists runs, runs <> [] /\ Forall re_run runs /\ s = render runs.
Proof.
  unfold accepted. rewrite is_cigar_valid_spec. split.
  - intros [Hs (runs & Hne & Hruns & [-> | ->])]; [eauto |].
    by apply strip_no_newline in Hs.
  - intros (runs & Hne & Hruns & ->). split; [| eauto].
    apply strip_id.
    + intros c t Heq. destruct runs as [|[ds op] runs]; [done |].
      apply Forall_cons in Hruns as [[[Hds Hd] _] _].
      unfold render in Heq; csimpl in Heq. unfold render_run at 1 in Heq; simpl in Heq.
      destruct ds as [|d ds]; [done |]. simpl in Heq. injection Heq as <- _.
      apply digit_not_space. by apply Forall_cons in Hd as [? _].
    + intros c t Heq. destruct (exists_last Hne) as (runs' & [ds op] & ->).
      apply Forall_app in Hruns as [_ Hr]. apply Forall_cons in Hr as [[_ Hop] _].
      unfold render in Heq. rewrite fmap_app, concat_app in Heq. simpl in Heq.
      unfold render_run at 2 in Heq. simpl in Heq.
      rewrite app_nil_r, app_assoc in Heq. apply app_inj_tail in Heq as [_ <-].
      simpl in Hop. destruct Hop as [-> | [-> | [-> | ->]]]; reflexivity.
Qed.

(** ** The resolver *)

Lemma count_nil x : count x [] = 0.
Proof. done. Qed.

Lemma count_cons x pos l :
  count x (pos :: l) = (if Ascii.eqb pos x then 1 else 0) + count x l.
Proof.
  unfold count. simpl. destruct (Ascii.eqb_spec pos x) as [-> | Hne].
  - destruct (ascii_dec x x); [lia | done].
  - destruct (ascii_dec pos x); [done | lia].
Qed.

Lemma count_bounds x l : 0 <= count x l <= Z.of_nat (length l).
Proof.
  induction l as [|pos l IH]; [rewrite count_nil; simpl; lia |].
  rewrite count_cons. simpl length. destruct (Ascii.eqb pos x); lia.
Qed.

Lemma transcript_len_nil : transcript_len [] = 0.
Proof. done. Qed.

Lemma transcript_len_cons pos l :
  transcript_len (pos :: l)
  = (if Ascii.eqb pos "D" then 0 else 1) + transcript_len l.
Proof.
  unfold transcript_len. rewrite count_cons. simpl length.
  destruct (Ascii.eqb pos "D"); lia.
Qed.

Lemma transcript_len_nonneg l : 0 <= transcript_len l.
Proof. unfold transcript_len. pose proof (count_bounds "D" l). lia. Qed.

Lemma transcript_len_app l1 l2 :
  transcript_len (l1 ++ l2) = transcript_len l1 + transcript_len l2.
Proof.
  induction l1 as [|pos l1 IH]; simpl; [by rewrite transcript_len_nil |].
  rewrite !transcript_len_cons, IH. lia.
Qed.

(** The transcript length of the range check is the number of entries
    that are not deletions. *)
Lemma transcript_len_non_deletions l :
  transcript_len l = Z.of_nat (length (non_deletions l)).
Proof.
  induction l as [|pos l IH]; [done |].
  rewrite transcript_len_cons, IH. unfold non_deletions.
  rewrite filter_cons. destruct (Ascii.eqb_spec pos "D") as [-> | Hne].
  - rewrite decide_False by (intros H; by apply H). done.
  - rewrite decide_True by done. simpl length. lia.
Qed.

Lemma genome_len_cons pos l :
  genome_len (pos :: l) = (if Ascii.eqb pos "I" then 0 else 1) + genome_len l.
Proof.
  unfold genome_len. rewrite count_cons. simpl length.
  destruct (Ascii.eqb pos "I"); lia.
Qed.

(** The walk over a stretch of matches, insertions and deletions that
    ends before the coordinate moves both cursors by what it covers. *)
Lemma pos_loop_prefix coord pre rest tidx gpos :
  Forall is_mid pre -> tidx + transcript_len pre < coord ->
  pos_loop coord (pre ++ rest) tidx gpos
  = pos_loop coord rest (tidx + transcript_len pre) (gpos + genome_len pre).
Proof.
  intros Hpre. revert tidx gpos.
  induction Hpre as [|pos pre Hpos _ IH]; intros tidx gpos Hlt.
  - simpl. rewrite transcript_len_nil. replace (genome_len []) with 0 by done.
    by rewrite !Z.add_0_r.
  - rewrite transcript_len_cons in Hlt. pose proof (transcript_len_nonneg pre).
    rewrite transcript_len_cons, genome_len_cons. simpl.
    destruct Hpos as [-> | [-> | ->]]; simpl in *.
    + rewrite (proj2 (Z.ltb_lt _ _)) by lia. rewrite IH by lia. f_equal; lia.
    + rewrite (proj2 (Z.ltb_lt _ _)) by lia.
      rewrite (proj2 (Z.eqb_neq _ _)) by lia. rewrite IH by lia. f_equal; lia.
    + rewrite (proj2 (Z.ltb_lt _ _)) by lia. rewrite IH by lia. f_equal; lia.
Qed.

Lemma pos_loop_reached coord l tidx gpos :
  coord <= tidx -> pos_loop coord l tidx gpos = At gpos.
Proof.
  intros H. destruct l; simpl; [done |].
  by rewrite (proj2 (Z.ltb_ge _ _)).
Qed.

Lemma pos_loop_insertions coord l tidx gpos :
  Forall (fun pos => pos = "I") l ->
  tidx < coord -> coord - tidx <= Z.of_nat (length l) ->
  pos_loop coord l tidx gpos = NA.
Proof.
  intros Hl. revert tidx. induction Hl as [|pos l -> _ IH]; intros tidx Hlt Hlen.
  - simpl in Hlen. lia.
  - simpl. rewrite (proj2 (Z.ltb_lt _ _)) by lia.
    destruct (Z.eqb_spec (tidx + 1) coord); [done |].
    apply IH; [lia |]. simpl length in Hlen. lia.
Qed.

Lemma get_genome_pos_expanded coord s start l :
  cigar_str_to_list s = Ok l ->
  get_genome_pos coord s start
  = if coord >=? transcript_len l then Raise (range_error coord)
    else Ok (pos_loop coord l (- 1) (start - 1)).
Proof. unfold get_genome_pos. by intros ->. Qed.

Lemma accepted_expands s :
  accepted s ->
  exists runs, runs <> [] /\ Forall re_run runs /\ s = render runs /\
    cigar_str_to_list s = Ok (expand_runs runs).
Proof.
  intros H. apply accepted_runs in H as (runs & Hne & Hruns & ->).
  exists runs. repeat (split; [done |]).
  unfold cigar_str_to_list. rewrite cigar_loop_render; [done |].
  eapply Forall_impl; [exact Hruns | apply re_run_wf].
Qed.

Lemma pos_loop_full_reached coord l tidx gpos :
  coord <= tidx -> pos_loop_full coord l tidx gpos = At gpos.
Proof.
  intros H. induction l as [|pos l IH]; simpl; [done |].
  by rewrite (proj2 (Z.ltb_ge _ _)).
Qed.

Lemma pos_loop_full_eq coord l tidx gpos :
  pos_loop_full coord l tidx gpos = pos_loop coord l tidx gpos.
Proof.
  revert tidx gpos. induction l as [|pos l IH]; intros tidx gpos; simpl; [done |].
  destruct (Z.ltb_spec tidx coord).
  - rewrite !IH. done.
  - by apply pos_loop_full_reached.
Qed.

Lemma run_op_in_render r runs : r ∈ runs -> r.2 ∈ render runs.
Proof.
  unfold render. induction 1 as [r runs | r r' runs _ IH]; csimpl.
  - unfold render_run. apply elem_of_app. left. apply elem_of_app. right.
    apply list_elem_of_singleton. done.
  - apply elem_of_app. by right.
Qed.

Lemma expand_runs_insertions runs :
  Forall (fun r : run => r.2 = "I") runs ->
  Forall (fun pos => pos = "I") (expand_runs runs).
Proof.
  induction 1 as [|[ds op] runs Hop _ IH]; [constructor |].
  unfold expand_runs; csimpl. apply Forall_app. split; [| exact IH].
  unfold expand_run. simpl in *. subst op.
  apply Forall_forall. by intros x [-> _]%elem_of_replicate.
Qed.

Lemma transcript_len_insertions l :
  Forall (fun pos => pos = "I") l -> transcript_len l = Z.of_nat (length l).
Proof.
  induction 1 as [|pos l -> _ IH]; [done |].
  rewrite transcript_len_cons, IH. simpl. lia.
Qed.

(** ** The claims *)

(** C1. A query coordinate that lands on a Match entry of the expansion
    resolves to the start position plus the number of genome positions
    (matches and deletions) the walk passes before that entry; so
    resolve(0, "10M", 3) = 3, resolve(0, "10M", 0) = 0,
    resolve(4, "8M7D6M2I2M11D7M", 3) = 7 and
    resolve(19, "8M7D6M2I2M11D7M", 3) = 38. *)
Theorem resolve_match_position :
  (forall cigar_str pre post start_pos,
      cigar_str_to_list cigar_str = Ok (pre ++ "M"%char :: post) ->
      Forall is_mid pre ->
      get_genome_pos (transcript_len pre) cigar_str start_pos
      = Ok (At (start_pos + genome_len pre)))
  /\ get_genome_pos 0 (py "10M") 3 = Ok (At 3)
  /\ get_genome_pos 0 (py "10M") 0 = Ok (At 0)
  /\ get_genome_pos 4 (py "8M7D6M2I2M11D7M") 3 = Ok (At 7)
  /\ get_genome_pos 19 (py "8M7D6M2I2M11D7M") 3 = Ok (At 38).
Proof.
  split; [| repeat split; reflexivity].
  intros s pre post start Hs Hpre.
  rewrite (get_genome_pos_expanded _ _ _ _ Hs).
  rewrite transcript_len_app, transcript_len_cons. simpl.
  pose proof (transcript_len_nonneg post).
  destruct (Z.geb_spec (transcript_len pre) (transcript_len pre + (1 + transcript_len post)));
    [lia |].
  rewrite pos_loop_prefix by (done || lia). simpl.
  rewrite (proj2 (Z.ltb_lt _ _)) by lia.
  rewrite pos_loop_reached by lia. do 2 f_equal. lia.
Qed.

Lemma resolve_match_position_witness :
  Forall is_mid (py "MMMDDI") /\
  get_genome_pos 4 (py "3M2D1I1M1I2M") 2 = Ok (At 7).
Proof.
  assert (H : Forall is_mid (py "MMMDDI")).
  { repeat apply Forall_cons_2; try apply Forall_nil_2; unfold is_mid; auto. }
  split; [exact H |].
  exact (proj1 resolve_match_position (py "3M2D1I1M1I2M") (py "MMMDDI") (py "IMM") 2
           eq_refl H).
Defined.

(** C2. A query coordinate that falls inside an insertion resolves to the
    sentinel 'NA' instead of an integer: whenever the coordinate lands on
    an I entry of the expansion, after any stretch of matches, insertions
    and deletions, the resolver returns 'NA'; so
    resolve(3, "3M2D1I1M1I2M", 2) = 'NA', resolve(4, "3M2D1I1M1I2M", 2) = 7,
    resolve(1, "3I", 2) = 'NA'; and for an accepted encoding made of
    insertion runs only, every coordinate from 0 up to the transcript
    length resolves to the sentinel. *)
Theorem resolve_insertion :
  (forall cigar_str pre post start_pos,
      cigar_str_to_list cigar_str = Ok (pre ++ "I"%char :: post) ->
      Forall is_mid pre ->
      get_genome_pos (transcript_len pre) cigar_str start_pos = Ok NA)
  /\ (forall cigar_str,
      accepted cigar_str ->
      Forall (fun c => is_digit c = true \/ c = "I"%char) cigar_str ->
      exists cigar_list,
        cigar_str_to_list cigar_str = Ok cigar_list /\
        forall transcript_coord start_pos,
          0 <= transcript_coord < transcript_len cigar_list ->
          get_genome_pos transcript_coord cigar_str start_pos = Ok NA)
  /\ get_genome_pos 3 (py "3M2D1I1M1I2M") 2 = Ok NA
  /\ get_genome_pos 4 (py "3M2D1I1M1I2M") 2 = Ok (At 7)
  /\ get_genome_pos 1 (py "3I") 2 = Ok NA.
Proof.
  split; [| split; [| repeat split; reflexivity]].
  - intros s pre post start Hs Hpre.
    rewrite (get_genome_pos_expanded _ _ _ _ Hs).
    rewrite transcript_len_app, transcript_len_cons. simpl.
    pose proof (transcript_len_nonneg post).
    destruct (Z.geb_spec (transcript_len pre)
                (transcript_len pre + (1 + transcript_len post))); [lia |].
    rewrite pos_loop_prefix by (done || lia). simpl.
    rewrite (proj2 (Z.ltb_lt _ _)) by lia.
    by rewrite (proj2 (Z.eqb_eq _ _)) by lia.
  - intros s Hacc Hall.
    destruct (accepted_expands s Hacc) as (runs & _ & Hruns & -> & Hexp).
    exists (expand_runs runs). split; [done |]. intros coord start Hcoord.
    assert (Hins : Forall (fun pos => pos = "I"%char) (expand_runs runs)).
    { apply expand_runs_insertions. apply Forall_forall. intros r Hr.
      rewrite Forall_forall in Hall. rewrite Forall_forall in Hruns.
      destruct (Hall _ (run_op_in_render r runs Hr)) as [Hd | Hi]; [| done].
      destruct (Hruns _ Hr) as [_ [Ho | [Ho | [Ho | Ho]]]]; rewrite Ho in Hd; discriminate. }
    rewrite (get_genome_pos_expanded _ _ _ _ Hexp).
    destruct (Z.geb_spec coord (transcript_len (expand_runs runs))); [lia |].
    f_equal. rewrite transcript_len_insertions in Hcoord by done.
    apply pos_loop_insertions; [done | lia | lia].
Qed.

Lemma resolve_insertion_witness :
  (Forall is_mid (py "MM") /\
   get_genome_pos (transcript_len (py "MM")) (py "2M1I") 5 = Ok NA)
  /\ exists cigar_list,
       cigar_str_to_list (py "3I") = Ok cigar_list /\
       forall transcript_coord start_pos,
         0 <= transcript_coord < transcript_len cigar_list ->
         get_genome_pos transcript_coord (py "3I") start_pos = Ok NA.
Proof.
  assert (H : Forall is_mid (py "MM")).
  { repeat apply Forall_cons_2; try apply Forall_nil_2; unfold is_mid; auto. }
  split.
  - split; [exact H |].
    exact (proj1 resolve_insertion (py "2M1I") (py "MM") [] 5 eq_refl H).
  - apply (proj1 (proj2 resolve_insertion) (py "3I")).
    + split; reflexivity.
    + apply Forall_cons_2; [left; reflexivity |].
      apply Forall_cons_2; [right; reflexivity |]. apply Forall_nil_2.
Defined.

(** C3. For an accepted encoding the resolver raises the range error
    exactly when the query coordinate is at or above the transcript
    length, the number of entries of the expansion that are not
    deletions, and returns a value otherwise;
    resolve(8, "3M2D1I1M1I2M", 2) raises the range error. *)
Theorem range_error_iff :
  (forall cigar_str transcript_coord start_pos,
      accepted cigar_str ->
      exists cigar_list,
        cigar_str_to_list cigar_str = Ok cigar_list /\
        transcript_len cigar_list = Z.of_nat (length (non_deletions cigar_list)) /\
        (get_genome_pos transcript_coord cigar_str start_pos
           = Raise (range_error transcript_coord)
         <-> transcript_coord >= Z.of_nat (length (non_deletions cigar_list))) /\
        (transcript_coord < Z.of_nat (length (non_deletions cigar_list)) ->
         exists g, get_genome_pos transcript_coord cigar_str start_pos = Ok g))
  /\ get_genome_pos 8 (py "3M2D1I1M1I2M") 2 = Raise (range_error 8).
Proof.
  split; [| reflexivity].
  intros s coord start Hacc.
  destruct (accepted_expands s Hacc) as (runs & _ & _ & _ & Hexp).
  exists (expand_runs runs). split; [done |].
  split; [apply transcript_len_non_deletions |].
  rewrite (get_genome_pos_expanded _ _ _ _ Hexp).
  rewrite <- transcript_len_non_deletions.
  destruct (Z.geb_spec coord (transcript_len (expand_runs runs))).
  - split; [split; [lia | done] | lia].
  - split; [split; [done | lia] | eauto].
Qed.

Lemma range_error_iff_witness :
  exists cigar_list,
    cigar_str_to_list (py "3M2D1I1M1I2M") = Ok cigar_list /\
    transcript_len cigar_list = Z.of_nat (length (non_deletions cigar_list)) /\
    (get_genome_pos 8 (py "3M2D1I1M1I2M") 2 = Raise (range_error 8)
     <-> 8 >= Z.of_nat (length (non_deletions cigar_list))) /\
    (8 < Z.of_nat (length (non_deletions cigar_list)) ->
     exists g, get_genome_pos 8 (py "3M2D1I1M1I2M") 2 = Ok g).
Proof.
  apply (proj1 range_error_iff (py "3M2D1I1M1I2M") 8 2).
  split; reflexivity.
Defined.

(** The validator accepts every sequence of deletion runs. *)
Lemma deletion_runs_valid runs :
  runs <> [] -> Forall (fun r : run => is_count r.1 /\ r.2 = "D"%char) runs ->
  is_cigar_valid (render runs) = true.
Proof.
  intros Hne Hruns. apply is_cigar_valid_spec. exists runs.
  split; [done |]. split; [| by left].
  eapply Forall_impl; [exact Hruns |]. intros r [Hc Ho]. split; auto.
Qed.

(** C4. The validator at all-deletion encodings: it returns True for
    "3D" and for "2D5D", although the module documents that a CIGAR with
    only deletions is invalid. *)
Theorem all_deletion_accepted :
  is_cigar_valid (py "3D") = true /\ is_cigar_valid (py "2D5D") = true.
Proof. split; reflexivity. Qed.

(** C5, as stated, fails: the validator returns True for "0M". *)
Lemma zero_run_accepted : is_cigar_valid (py "0M") <> false.
Proof. discriminate. Qed.

(** C5, amended. On a string with neither a bar nor a newline the
    validator returns True exactly when the string is one or more runs of
    one or more decimal digits followed by one of M, I, D; the digits may
    spell zero. *)
Theorem is_cigar_valid_grammar cigar_str :
  Forall (fun c => c <> "|"%char /\ c <> "010"%char) cigar_str ->
  (is_cigar_valid cigar_str = true <->
   exists runs, runs <> [] /\ Forall mid_run runs /\ cigar_str = render runs).
Proof.
  intros Hs. rewrite is_cigar_valid_spec. rewrite Forall_forall in Hs. split.
  - intros (runs & Hne & Hruns & [-> | ->]).
    + exists runs. split; [done |]. split; [| done].
      apply Forall_forall. intros r Hr. rewrite Forall_forall in Hruns.
      destruct (Hruns _ Hr) as [Hc [Ho | [Ho | [Ho | Ho]]]];
        [split; auto | split; auto | split; auto |].
      pose proof (run_op_in_render r runs Hr) as Hin. rewrite Ho in Hin.
      by destruct (Hs _ Hin).
    + exfalso. assert (Hin : "010"%char ∈ render runs ++ ["010"%char]).
      { apply elem_of_app. right. by apply list_elem_of_singleton. }
      by destruct (Hs _ Hin).
  - intros (runs & Hne & Hruns & ->). exists runs. split; [done |]. split; [| by left].
    eapply Forall_impl; [exact Hruns | apply mid_run_re].
Qed.

Lemma is_cigar_valid_grammar_witness :
  is_cigar_valid (py "0M") = true <->
  exists runs, runs <> [] /\ Forall mid_run runs /\ py "0M" = render runs.
Proof.
  apply (is_cigar_valid_grammar (py "0M")).
  apply Forall_cons_2; [split; discriminate |].
  apply Forall_cons_2; [split; discriminate |]. apply Forall_nil_2.
Defined.

(** C6. The resolver that leaves the loop once the transcript cursor has
    reached the query coordinate and the one that goes on over the
    remaining entries return the same result, for every encoding, start
    position and coordinate. *)
Theorem full_scan_same transcript_coord cigar_str start_pos :
  get_genome_pos_full transcript_coord cigar_str start_pos
  = get_genome_pos transcript_coord cigar_str start_pos.
Proof.
  unfold get_genome_pos_full, get_genome_pos.
  destruct (cigar_str_to_list cigar_str) as [l | e]; simpl; [| done].
  destruct (transcript_coord >=? transcript_len l); [done |].
  by rewrite pos_loop_full_eq.
Qed.

(** C7. The expander applied to the spelling of a sequence of runs
    returns the run-length copies of each run's operator, concatenated in
    the order of the runs; every accepted encoding is such a spelling;
    "3M1D2I" expands to [M, M, M, D, I, I]. *)
Theorem expander_runs :
  (forall runs,
      Forall wf_run runs ->
      cigar_str_to_list (render runs) = Ok (expand_runs runs))
  /\ (forall cigar_str,
      accepted cigar_str ->
      exists runs, Forall wf_run runs /\ cigar_str = render runs)
  /\ cigar_str_to_list (py "3M1D2I") = Ok (py "MMMDII").
Proof.
  split; [| split; [| reflexivity]].
  - intros runs Hruns. unfold cigar_str_to_list. by rewrite cigar_loop_render.
  - intros s Hacc. apply accepted_runs in Hacc as (runs & _ & Hruns & ->).
    exists runs. split; [| done].
    eapply Forall_impl; [exact Hruns | apply re_run_wf].
Qed.

Lemma expander_runs_witness :
  cigar_str_to_list (render [(py "3", "M"%char); (py "1", "D"%char); (py "2", "I"%char)])
  = Ok (expand_runs [(py "3", "M"%char); (py "1", "D"%char); (py "2", "I"%char)]).
Proof.
  apply (proj1 expander_runs).
  repeat apply Forall_cons_2; try apply Forall_nil_2;
    (split; [split; [discriminate | repeat constructor] | reflexivity]).
Defined.

(** C10. For an accepted encoding and a negative query coordinate the
    resolver neither raises nor returns the sentinel: it returns the
    start position minus 1. *)
Theorem negative_coord cigar_str transcript_coord start_pos :
  accepted cigar_str -> transcript_coord < 0 ->
  get_genome_pos transcript_coord cigar_str start_pos = Ok (At (start_pos - 1)).
Proof.
  intros Hacc Hneg.
  destruct (accepted_expands _ Hacc) as (runs & _ & _ & _ & Hexp).
  rewrite (get_genome_pos_expanded _ _ _ _ Hexp).
  pose proof (transcript_len_nonneg (expand_runs runs)).
  destruct (Z.geb_spec transcript_coord (transcript_len (expand_runs runs))); [lia |].
  by rewrite pos_loop_reached by lia.
Qed.

Lemma negative_coord_witness :
  get_genome_pos (-1) (py "8M7D6M2I2M11D7M") 3 = Ok (At (3 - 1)).
Proof.
  apply negative_coord; [split; reflexivity | reflexivity].
Defined.

(** ** The loader *)

Lemma fields_four line :
  columns line = 4%nat ->
  line_fields line = [line_id line; line_chrom line; line_pos line; line_cigar line].
Proof.
  unfold columns, line_id, line_chrom, line_pos, line_cigar, field.
  destruct (line_fields line) as [|a [|b [|c [|d [|e l]]]]]; simpl; congruence.
Qed.

Lemma fields_not_four line :
  columns line <> 4%nat ->
  forall rest d,
    load_lines (line :: rest) d
    = Raise (ValueError (IncorrectFormat (columns line))).
Proof.
  unfold columns. intros H rest d. simpl.
  destruct (line_fields line) as [|a [|b [|c [|e [|f l]]]]]; simpl in *; congruence.
Qed.

Lemma load_lines_accept line rest d start :
  columns line = 4%nat -> is_cigar_valid (line_cigar line) = true ->
  d !! line_id line = None -> int (line_pos line) = Ok start ->
  load_lines (line :: rest) d
  = load_lines rest (<[line_id line := line_record line start]> d).
Proof.
  intros Hc Hv Hd Hi. simpl. rewrite (fields_four _ Hc). simpl.
  by rewrite Hv, Hd, Hi.
Qed.

Lemma load_lines_app l1 l2 d :
  load_lines (l1 ++ l2) d = bind (load_lines l1 d) (load_lines l2).
Proof.
  revert d. induction l1 as [|line l1 IH]; intros d; [done |].
  rewrite <- app_comm_cons.
  destruct (decide (columns line = 4%nat)) as [Hc | Hc];
    [| by rewrite !fields_not_four].
  simpl. rewrite (fields_four _ Hc). simpl.
  destruct (is_cigar_valid (line_cigar line)); simpl; [| done].
  destruct (d !! line_id line); [done |].
  destruct (int (line_pos line)); simpl; [apply IH | done].
Qed.

(** The keys of the mapping are the identifiers of the lines read. *)
Lemma load_lines_keys lines d d' :
  load_lines lines d = Ok d' ->
  forall tr_id,
    is_Some (d' !! tr_id) <-> is_Some (d !! tr_id) \/ tr_id ∈ line_id <$> lines.
Proof.
  revert d. induction lines as [|line lines IH]; intros d Hload tr_id.
  - injection Hload as <-. csimpl. rewrite elem_of_nil. tauto.
  - destruct (decide (columns line = 4%nat)) as [Hc | Hc];
      [| by rewrite fields_not_four in Hload].
    simpl in Hload. rewrite (fields_four _ Hc) in Hload. simpl in Hload.
    destruct (is_cigar_valid (line_cigar line)); simpl in Hload; [| done].
    destruct (d !! line_id line) eqn:Hd; [done |].
    destruct (int (line_pos line)) as [start |]; simpl in Hload; [| done].
    rewrite (IH _ Hload tr_id). csimpl. rewrite elem_of_cons.
    destruct (decide (tr_id = line_id line)) as [-> | Hne].
    + rewrite lookup_insert_eq. split; [intros _; right; by left |].
      intros _. left. by eexists.
    + rewrite lookup_insert_ne by done. tauto.
Qed.

Lemma get_transcript_dict_keys lines d :
  get_transcript_dict lines = Ok d ->
  forall tr_id, is_Some (d !! tr_id) <-> tr_id ∈ line_id <$> lines.
Proof.
  intros H tr_id. rewrite (load_lines_keys _ _ _ H tr_id).
  rewrite lookup_empty. split; [intros [[? ?] | ?]; done | by right].
Qed.

(** The loader stops at a rejected line, whatever follows it. *)
Lemma load_lines_reject pre line d :
  (forall tr_id, is_Some (d !! tr_id) <-> tr_id ∈ line_id <$> pre) ->
  rejected pre line ->
  exists e, forall post, load_lines (line :: post) d = Raise e.
Proof.
  intros Hkeys Hrej.
  destruct (decide (columns line = 4%nat)) as [Hc | Hc];
    [| eexists; intros post; by apply fields_not_four].
  destruct (is_cigar_valid (line_cigar line)) eqn:Hv.
  2:{ eexists. intros post. simpl. rewrite (fields_four _ Hc). simpl.
      by rewrite Hv. }
  destruct (d !! line_id line) as [t |] eqn:Hd.
  { eexists. intros post. simpl. rewrite (fields_four _ Hc). simpl.
    by rewrite Hv, Hd. }
  destruct Hrej as [[H | [H | H]] | [e He]]; try congruence.
  - apply Hkeys in H as [t Ht]. congruence.
  - exists e. intros post. simpl. rewrite (fields_four _ Hc). simpl.
    by rewrite Hv, Hd, He.
Qed.

Lemma load_lines_clean lines :
  (forall pre line post, lines = pre ++ line :: post -> ~ rejected pre line) ->
  exists d,
    get_transcript_dict lines = Ok d /\
    forall line, line ∈ lines ->
      exists start, int (line_pos line) = Ok start /\
        d !! line_id line = Some (line_record line start).
Proof.
  induction lines as [|last init IH] using rev_ind; intros Hclean.
  - exists ∅. split; [done |]. intros line H. by apply elem_of_nil in H.
  - destruct IH as (d & Hd & Hrec).
    { intros pre line post -> Hrej.
      apply (Hclean pre line (post ++ [last])); [| done].
      by rewrite <- app_assoc. }
    assert (Hlast : ~ rejected init last) by (by apply (Hclean init last [])).
    assert (Hc : columns last = 4%nat).
    { destruct (decide (columns last = 4%nat)); [done |].
      exfalso. apply Hlast. left. by left. }
    assert (Hv : is_cigar_valid (line_cigar last) = true).
    { destruct (is_cigar_valid (line_cigar last)) eqn:E; [done |].
      exfalso. apply Hlast. left. right. by left. }
    assert (Hid : line_id last ∉ line_id <$> init).
    { intros H. apply Hlast. left. right. by right. }
    assert (Hnew : d !! line_id last = None).
    { apply eq_None_not_Some. intros H. by apply (get_transcript_dict_keys _ _ Hd) in H. }
    destruct (int (line_pos last)) as [start | e] eqn:Hint;
      [| exfalso; apply Hlast; right; eauto].
    exists (<[line_id last := line_record last start]> d). split.
    + unfold get_transcript_dict in *. rewrite load_lines_app, Hd. cbn [bind].
      by rewrite (load_lines_accept _ _ _ start).
    + intros line Hin. apply elem_of_app in Hin as [Hin | Hin].
      * destruct (Hrec _ Hin) as (z & Hz & Hl). exists z. split; [done |].
        rewrite lookup_insert_ne; [done |].
        intros Heq. apply Hid. rewrite Heq. apply list_elem_of_fmap. eauto.
      * apply list_elem_of_singleton in Hin as ->. exists start. split; [done |].
        apply lookup_insert_eq.
Qed.

(** C9, as stated, fails: a table whose only line has four columns, an
    encoding the validator accepts and no earlier identifier to repeat is
    not loaded when its start position is not an integer. *)
Lemma load_bad_position :
  let line := py "TR1" ++ ["009"%char] ++ py "CHR1" ++ ["009"%char] ++ py "x"
                ++ ["009"%char] ++ py "3M" ++ ["010"%char] in
  ~ ((forall pre l post, [line] = pre ++ l :: post -> ~ malformed pre l) ->
     exists d, get_transcript_dict [line] = Ok d).
Proof.
  intros line H. destruct H as [d Hd]; [| discriminate Hd].
  intros pre l post Heq.
  destruct pre as [|a pre]; simpl in Heq.
  - injection Heq as <- <-. intros [Hc | [Hv | Hdup]].
    + by apply Hc.
    + discriminate Hv.
    + by apply elem_of_nil in Hdup.
  - injection Heq as _ Heq. by destruct pre.
Qed.

(** C9, amended. Loading raises an error, and returns no mapping, when
    some line has a column count other than 4, an encoding the validator
    rejects, the identifier of an earlier line, or a start position that
    int() does not read; the error is settled at the first such line,
    whatever follows it. Otherwise loading returns a mapping whose keys
    are the identifiers of the lines and which holds the record of every
    line. *)
Theorem load_all_or_nothing :
  (forall lines pre line post,
      lines = pre ++ line :: post -> rejected pre line ->
      exists e, get_transcript_dict lines = Raise e)
  /\ (forall pre line d,
      get_transcript_dict pre = Ok d -> rejected pre line ->
      exists e, forall post, get_transcript_dict (pre ++ line :: post) = Raise e)
  /\ (forall lines,
      (forall pre line post, lines = pre ++ line :: post -> ~ rejected pre line) ->
      exists d,
        get_transcript_dict lines = Ok d /\
        (forall tr_id, is_Some (d !! tr_id) <-> tr_id ∈ line_id <$> lines) /\
        (forall line, line ∈ lines ->
           exists start, int (line_pos line) = Ok start /\
             d !! line_id line = Some (line_record line start))).
Proof.
  assert (Hfirst : forall pre line d,
      get_transcript_dict pre = Ok d -> rejected pre line ->
      exists e, forall post, get_transcript_dict (pre ++ line :: post) = Raise e).
  { intros pre line d Hd Hrej.
    destruct (load_lines_reject pre line d (get_transcript_dict_keys _ _ Hd) Hrej)
      as [e He].
    exists e. intros post. unfold get_transcript_dict in *.
    rewrite load_lines_app, Hd. cbn [bind]. apply He. }
  split; [| split; [exact Hfirst |]].
  - intros lines pre line post -> Hrej.
    destruct (get_transcript_dict pre) as [d | e] eqn:Hpre.
    + destruct (Hfirst pre line d Hpre Hrej) as [e He]. by exists e.
    + exists e. unfold get_transcript_dict in *. by rewrite load_lines_app, Hpre.
  - intros lines Hclean. destruct (load_lines_clean lines Hclean) as (d & Hd & Hrec).
    exists d. split; [done |]. split; [| done].
    by apply get_transcript_dict_keys.
Qed.

Lemma load_all_or_nothing_witness :
  (exists e, get_transcript_dict [py "TR1"] = Raise e)
  /\ exists d,
      get_transcript_dict [py "TR2" ++ ["009"%char] ++ py "CHR2" ++ ["009"%char]
                             ++ py "10" ++ ["009"%char] ++ py "20M"] = Ok d /\
      (forall tr_id, is_Some (d !! tr_id) <->
         tr_id ∈ line_id <$> [py "TR2" ++ ["009"%char] ++ py "CHR2" ++ ["009"%char]
                                ++ py "10" ++ ["009"%char] ++ py "20M"]) /\
      (forall line,
         line ∈ [py "TR2" ++ ["009"%char] ++ py "CHR2" ++ ["009"%char]
                   ++ py "10" ++ ["009"%char] ++ py "20M"] ->
         exists start, int (line_pos line) = Ok start /\
           d !! line_id line = Some (line_record line start)).
Proof.
  split.
  - apply (proj1 load_all_or_nothing [py "TR1"] [] (py "TR1") [] eq_refl).
    left. left. discriminate.
  - apply (proj2 (proj2 load_all_or_nothing)).
    intros pre line post Heq. destruct pre as [|a pre]; simpl in Heq.
    + injection Heq as <- <-. intros [[Hc | [Hv | Hdup]] | [e He]].
      * by apply Hc.
      * discriminate Hv.
      * by apply elem_of_nil in Hdup.
      * discriminate He.
    + injection Heq as _ Heq. by destruct pre.
Defined.

(** ** The resolver over the store *)

Lemma cigar_loop_st_spec cs a num h acc :
  h !! a = Some acc ->
  exists obj,
    cigar_loop_st cs a num h
    = (match cigar_loop cs acc num with Ok _ => Ok a | Raise e => Raise e end,
       <[a := obj]> h) /\
    forall l, cigar_loop cs acc num = Ok l -> obj = l.
Proof.
  revert num h acc.
  induction cs as [|char cs IH]; intros num h acc Ha; cbn [cigar_loop_st cigar_loop].
  - exists acc. split; [by rewrite list_insert_id | by intros l [= <-]].
  - destruct (isnumeric char); [by apply IH |].
    destruct (int num) as [n | e]; cbn [bind].
    + unfold extend. rewrite Ha.
      destruct (IH [] (<[a := acc ++ list_mul n char]> h) (acc ++ list_mul n char))
        as (obj & Hst & Hobj).
      { apply list_lookup_insert_eq. by eapply lookup_lt_Some. }
      exists obj. split; [| done]. by rewrite Hst, list_insert_insert_eq.
    + exists acc. split; [by rewrite list_insert_id | done].
Qed.

(** A call returns what the function of its arguments returns, and
    leaves the store with one more object at its end. *)
Lemma get_genome_pos_st_spec coord s start h :
  exists obj,
    get_genome_pos_st coord s start h = (get_genome_pos coord s start, h ++ [obj]).
Proof.
  unfold get_genome_pos_st, cigar_str_to_list_st, new_list,
    get_genome_pos, cigar_str_to_list.
  destruct (cigar_loop_st_spec s (length h) [] (h ++ [[]]) [])
    as (obj & Hst & Hobj); [by apply list_lookup_middle |].
  exists obj. rewrite Hst.
  assert (Hins : <[length h := obj]> (h ++ [[]]) = h ++ [obj]).
  { rewrite insert_app_r_alt by lia. by rewrite Nat.sub_diag. }
  rewrite Hins.
  destruct (cigar_loop s [] []) as [l | e]; simpl; [| done].
  rewrite (Hobj l eq_refl). unfold deref.
  rewrite list_lookup_middle by done. simpl.
  by destruct (coord >=? transcript_len l).
Qed.

Lemma resolve_each_spec coords s start h :
  (resolve_each coords s start h).1
  = (fun coord => get_genome_pos coord s start) <$> coords.
Proof.
  revert h. induction coords as [|coord coords IH]; intros h; [done |].
  simpl. destruct (get_genome_pos_st_spec coord s start h) as [obj ->].
  specialize (IH (h ++ [obj])).
  destruct (resolve_each coords s start (h ++ [obj])) as [rs h2].
  simpl in *. by rewrite IH.
Qed.

(** C8. For a fixed encoding and start position the outcome of a call
    of the resolver is the same from every store, so two calls with the
    same coordinate agree; a call changes no object that was there
    before it; and in a sequence of calls each outcome is the one the
    call has on its own, whatever the other calls and their order. *)
Theorem resolver_deterministic cigar_str start_pos :
  (forall transcript_coord h1 h2,
      (get_genome_pos_st transcript_coord cigar_str start_pos h1).1
      = (get_genome_pos_st transcript_coord cigar_str start_pos h2).1)
  /\ (forall transcript_coord h,
      h `prefix_of` (get_genome_pos_st transcript_coord cigar_str start_pos h).2)
  /\ (forall coords h,
      (resolve_each coords cigar_str start_pos h).1
      = (fun transcript_coord =>
           (get_genome_pos_st transcript_coord cigar_str start_pos []).1) <$> coords).
Proof.
  split; [| split].
  - intros coord h1 h2.
    destruct (get_genome_pos_st_spec coord cigar_str start_pos h1) as [o1 ->].
    by destruct (get_genome_pos_st_spec coord cigar_str start_pos h2) as [o2 ->].
  - intros coord h.
    destruct (get_genome_pos_st_spec coord cigar_str start_pos h) as [obj ->].
    by exists [obj].
  - intros coords h. rewrite resolve_each_spec. apply list_fmap_ext.
    intros i coord _.
    by destruct (get_genome_pos_st_spec coord cigar_str start_pos []) as [obj ->].
Qed.

(** * Further properties *)

(** ** The validator *)

Lemma render_app runs1 runs2 : render (runs1 ++ runs2) = render runs1 ++ render runs2.
Proof. unfold render. by rewrite fmap_app, concat_app. Qed.

Lemma render_cons r runs : render (r :: runs) = r.1 ++ r.2 :: render runs.
Proof. unfold render; csimpl. unfold render_run. by rewrite <- app_assoc. Qed.

Lemma render_chars runs :
  Forall re_run runs ->
  Forall (fun c => is_digit c = true \/ is_op c) (render runs).
Proof.
  induction 1 as [|[ds op] runs [[_ Hd] Hop] _ IH]; [constructor |].
  rewrite render_cons. simpl in *. apply Forall_app. split.
  - eapply Forall_impl; [exact Hd |]. by left.
  - constructor; [right; exact Hop | done].
Qed.

Lemma render_head runs :
  runs <> [] -> Forall re_run runs ->
  exists d rest, render runs = d :: rest /\ is_digit d = true.
Proof.
  intros Hne Hruns. destruct runs as [|[ds op] runs]; [done |].
  apply Forall_cons in Hruns as [[[Hds Hd] _] _]. simpl in *.
  destruct ds as [|d ds]; [done |]. apply Forall_cons in Hd as [Hd _].
  rewrite render_cons. simpl. eauto.
Qed.

Lemma render_last runs :
  runs <> [] -> Forall re_run runs ->
  exists init c, render runs = init ++ [c] /\ is_op c.
Proof.
  intros Hne Hruns. destruct (exists_last Hne) as (runs' & [ds op] & ->).
  apply Forall_app in Hruns as [_ Hr]. apply Forall_cons in Hr as [[_ Hop] _].
  exists (render runs' ++ ds), op. split; [| exact Hop].
  rewrite render_app, render_cons. simpl. by rewrite <- app_assoc.
Qed.

(** X1. A string the validator accepts begins with a digit, ends with an
    operator character or a newline, and holds nothing but digits, the
    characters M, I, D, | and a newline: strings of digits only, strings
    without a digit, and strings that begin with a letter are rejected. *)
Theorem valid_shape cigar_str :
  is_cigar_valid cigar_str = true ->
  (exists d rest, cigar_str = d :: rest /\ is_digit d = true) /\
  (exists init c, cigar_str = init ++ [c] /\ (is_op c \/ c = "010"%char)) /\
  Forall (fun c => is_digit c = true \/ is_op c \/ c = "010"%char) cigar_str.
Proof.
  intros H. apply is_cigar_valid_spec in H as (runs & Hne & Hruns & Hs).
  destruct (render_head runs Hne Hruns) as (d & rest & Hhd & Hd).
  destruct (render_last runs Hne Hruns) as (init & c & Hlast & Hc).
  assert (Hall : Forall (fun c => is_digit c = true \/ is_op c \/ c = "010"%char)
                   (render runs)).
  { eapply Forall_impl; [exact (render_chars runs Hruns) |]. intros x [Hx | Hx]; auto. }
  destruct Hs as [-> | ->].
  - split; [eauto |]. split; [eauto | done].
  - split; [rewrite Hhd; simpl; eauto |]. split; [eauto |].
    apply Forall_app. split; [done |]. constructor; [tauto | constructor].
Qed.

Lemma valid_shape_witness :
  (exists d rest, py "8M7D6M2I2M11D7M" = d :: rest /\ is_digit d = true) /\
  (exists init c, py "8M7D6M2I2M11D7M" = init ++ [c] /\ (is_op c \/ c = "010"%char)) /\
  Forall (fun c => is_digit c = true \/ is_op c \/ c = "010"%char)
    (py "8M7D6M2I2M11D7M").
Proof. apply valid_shape. reflexivity. Defined.

(** X2. The validator accepts exactly the encodings in stored form
    (stripped and valid) and those followed by one newline: the final
    newline is the only whitespace it lets through. *)
Theorem valid_accepted_or_newline cigar_str :
  is_cigar_valid cigar_str = true <->
  accepted cigar_str \/
  exists s, cigar_str = s ++ ["010"%char] /\ accepted s.
Proof.
  rewrite is_cigar_valid_spec. split.
  - intros (runs & Hne & Hruns & [-> | ->]).
    + left. apply accepted_runs. eauto.
    + right. exists (render runs). split; [done |]. apply accepted_runs. eauto.
  - intros [H | (s & -> & H)]; apply accepted_runs in H as (runs & Hne & Hruns & ->);
      exists runs; eauto.
Qed.

(** X3. Validity is kept by concatenation: an encoding in stored form
    followed by a valid encoding is valid. *)
Theorem valid_concat s1 s2 :
  accepted s1 -> is_cigar_valid s2 = true -> is_cigar_valid (s1 ++ s2) = true.
Proof.
  intros H1 H2. apply accepted_runs in H1 as (runs1 & Hne1 & Hruns1 & ->).
  apply is_cigar_valid_spec in H2 as (runs2 & Hne2 & Hruns2 & Hs2).
  apply is_cigar_valid_spec. exists (runs1 ++ runs2).
  split; [by destruct runs1 |]. split; [by apply Forall_app |].
  rewrite render_app. destruct Hs2 as [-> | ->]; [by left |].
  right. by rewrite app_assoc.
Qed.

Lemma valid_concat_witness : is_cigar_valid (py "8M7D" ++ py "6M2I") = true.
Proof. apply valid_concat; [split; reflexivity | reflexivity]. Defined.

(** ** The expander *)

Lemma int_raise s e : int s = Raise e -> e = ValueError (InvalidLiteral s).
Proof.
  unfold int. intros H.
  assert (Hbody : forall b v,
    match literal_digits false b with
    | Some ds => Ok (digits_val ds)
    | None => Raise (ValueError (InvalidLiteral s))
    end = v -> v = Raise e -> e = ValueError (InvalidLiteral s)).
  { intros b v <-. destruct (literal_digits false b); congruence. }
  destruct (strip s) as [|c b]; [by eapply Hbody |].
  destruct c as [[] [] [] [] [] [] [] []]; try (by eapply Hbody).
  simpl in H. destruct (literal_digits false b); simpl in H; congruence.
Qed.

Lemma int_empty : int [] = Raise (ValueError (InvalidLiteral [])).
Proof. reflexivity. Qed.

(** The list built so far is only ever extended. *)
Lemma cigar_loop_acc s acc num :
  cigar_loop s acc num = res_map (app acc) (cigar_loop s [] num).
Proof.
  revert acc num. induction s as [|c s IH]; intros acc num; simpl.
  - by rewrite app_nil_r.
  - destruct (isnumeric c); [apply IH |].
    destruct (int num) as [n | e]; simpl; [| done].
    rewrite (IH (acc ++ list_mul n c)), (IH (list_mul n c)).
    destruct (cigar_loop s [] []); simpl; [| done]. by rewrite app_assoc.
Qed.

Lemma cigar_loop_raise s acc num e :
  cigar_loop s acc num = Raise e -> exists lit, e = ValueError (InvalidLiteral lit).
Proof.
  revert acc num. induction s as [|c s IH]; intros acc num; simpl; [done |].
  destruct (isnumeric c); [apply IH |].
  destruct (int num) as [n | e'] eqn:Hint; simpl; [apply IH |].
  intros [= <-]. apply int_raise in Hint. eauto.
Qed.

Lemma cigar_loop_digits ds acc num :
  Forall (fun c => isnumeric c = true) ds -> cigar_loop ds acc num = Ok acc.
Proof.
  intros Hds. revert num. induction Hds as [|c ds Hc _ IH]; intros num; simpl; [done |].
  by rewrite Hc.
Qed.

Lemma cigar_loop_trailing s ds acc num l :
  Forall (fun c => isnumeric c = true) ds ->
  cigar_loop s acc num = Ok l -> cigar_loop (s ++ ds) acc num = Ok l.
Proof.
  intros Hds. revert acc num. induction s as [|c s IH]; intros acc num; simpl.
  - intros [= <-]. by apply cigar_loop_digits.
  - destruct (isnumeric c); [apply IH |].
    destruct (int num); simpl; [apply IH | done].
Qed.

Lemma cigar_loop_render_app runs rest acc :
  Forall wf_run runs ->
  cigar_loop (render runs ++ rest) acc [] = cigar_loop rest (acc ++ expand_runs runs) [].
Proof.
  intros Hruns. revert acc. induction Hruns as [|[ds op] runs [Hds Hop] _ IH]; intros acc.
  - simpl. by rewrite app_nil_r.
  - rewrite render_cons. simpl in *. rewrite <- app_assoc. simpl.
    rewrite cigar_loop_run by (try apply Hds; done). simpl.
    rewrite IH. unfold expand_runs; csimpl. by rewrite <- app_assoc.
Qed.

(** X4. The expander raises the [ValueError] of [int] on an operator
    that has no count: when the string begins with a character that is
    not numeric, and when two such characters stand side by side. *)
Theorem expander_missing_count :
  (forall c s,
      isnumeric c = false ->
      cigar_str_to_list (c :: s) = Raise (ValueError (InvalidLiteral [])))
  /\ (forall s1 c1 c2 s2,
      isnumeric c1 = false -> isnumeric c2 = false ->
      exists lit,
        cigar_str_to_list (s1 ++ c1 :: c2 :: s2)
        = Raise (ValueError (InvalidLiteral lit))).
Proof.
  split.
  - intros c s Hc. unfold cigar_str_to_list. simpl. by rewrite Hc.
  - intros s1 c1 c2 s2 H1 H2. unfold cigar_str_to_list.
    assert (Hgen : forall acc num, exists e,
               cigar_loop (s1 ++ c1 :: c2 :: s2) acc num = Raise e).
    { induction s1 as [|c s1 IH]; intros acc num; simpl.
      - rewrite H1. destruct (int num); simpl; [| eauto].
        rewrite H2. simpl. eauto.
      - destruct (isnumeric c); [apply IH |].
        destruct (int num); simpl; [apply IH | eauto]. }
    destruct (Hgen [] []) as [e He]. rewrite He.
    apply cigar_loop_raise in He as [lit ->]. eauto.
Qed.

Lemma expander_missing_count_witness :
  cigar_str_to_list (py "M3") = Raise (ValueError (InvalidLiteral [])) /\
  exists lit, cigar_str_to_list (py "2M" ++ "N"%char :: "D"%char :: py "7")
              = Raise (ValueError (InvalidLiteral lit)).
Proof.
  split.
  - apply (proj1 expander_missing_count). reflexivity.
  - apply (proj2 expander_missing_count); reflexivity.
Defined.

(** X5. Digits after the last operator are dropped without an error:
    a string that expands still expands, to the same list, with any
    numeric characters added at its end. *)
Theorem expander_trailing_digits cigar_str ds cigar_list :
  Forall (fun c => isnumeric c = true) ds ->
  cigar_str_to_list cigar_str = Ok cigar_list ->
  cigar_str_to_list (cigar_str ++ ds) = Ok cigar_list.
Proof.
  intros Hds Hs. unfold cigar_str_to_list in *. by apply cigar_loop_trailing.
Qed.

Lemma expander_trailing_digits_witness :
  cigar_str_to_list (py "2M" ++ py "3") = Ok (py "MM").
Proof.
  apply expander_trailing_digits; [| reflexivity].
  apply Forall_cons_2; [reflexivity | apply Forall_nil_2].
Defined.

(** X6. The expansion of an encoding in stored form followed by any
    string is the expansion of the first followed by the expansion of
    the second, and raises when the second raises. *)
Theorem expander_concat s1 s2 l1 :
  accepted s1 -> cigar_str_to_list s1 = Ok l1 ->
  cigar_str_to_list (s1 ++ s2) = res_map (app l1) (cigar_str_to_list s2).
Proof.
  intros Hacc Hl1.
  destruct (accepted_expands s1 Hacc) as (runs & _ & Hruns & -> & Hexp).
  rewrite Hexp in Hl1. injection Hl1 as <-.
  unfold cigar_str_to_list. rewrite cigar_loop_render_app.
  - simpl. apply cigar_loop_acc.
  - eapply Forall_impl; [exact Hruns | apply re_run_wf].
Qed.

Lemma expander_concat_witness :
  cigar_str_to_list (py "2D" ++ py "1M")
  = res_map (app (py "DD")) (cigar_str_to_list (py "1M")).
Proof. apply expander_concat; [split; reflexivity | reflexivity]. Defined.

Lemma genome_len_nil : genome_len [] = 0.
Proof. done. Qed.

Lemma genome_len_nonneg l : 0 <= genome_len l.
Proof. unfold genome_len. pose proof (count_bounds "I" l). lia. Qed.

Lemma genome_len_app l1 l2 : genome_len (l1 ++ l2) = genome_len l1 + genome_len l2.
Proof.
  induction l1 as [|pos l1 IH]; simpl; [by rewrite genome_len_nil |].
  rewrite !genome_len_cons, IH. lia.
Qed.

Lemma transcript_len_replicate n op :
  transcript_len (replicate n op) = if Ascii.eqb op "D" then 0 else Z.of_nat n.
Proof.
  induction n as [|n IH]; simpl replicate.
  - rewrite transcript_len_nil. by destruct (Ascii.eqb op "D").
  - rewrite transcript_len_cons, IH. destruct (Ascii.eqb op "D"); lia.
Qed.

Lemma genome_len_replicate n op :
  genome_len (replicate n op) = if Ascii.eqb op "I" then 0 else Z.of_nat n.
Proof.
  induction n as [|n IH]; simpl replicate.
  - rewrite genome_len_nil. by destruct (Ascii.eqb op "I").
  - rewrite genome_len_cons, IH. destruct (Ascii.eqb op "I"); lia.
Qed.

Lemma digits_val_nonneg ds : is_count ds -> 0 <= digits_val ds.
Proof. intros [_ Hd]. by apply digits_val_nonneg_from. Qed.

(** X7. The transcript length that the range check takes from the
    expansion is the sum of the run lengths of the runs that are not
    deletions, and the genome positions the expansion covers are the sum
    of the run lengths of the runs that are not insertions. *)
Theorem lengths_from_runs runs :
  Forall wf_run runs ->
  exists cigar_list,
    cigar_str_to_list (render runs) = Ok cigar_list /\
    transcript_len cigar_list = runs_transcript_len runs /\
    genome_len cigar_list = runs_genome_len runs.
Proof.
  intros Hruns. exists (expand_runs runs). split.
  { unfold cigar_str_to_list. by rewrite cigar_loop_render. }
  induction Hruns as [|[ds op] runs [Hds _] _ [IHt IHg]]; [done |].
  unfold expand_runs; csimpl. fold (expand_runs runs).
  rewrite transcript_len_app, genome_len_app, IHt, IHg.
  unfold expand_run. simpl in *.
  rewrite transcript_len_replicate, genome_len_replicate.
  rewrite Z2Nat.id by (by apply digits_val_nonneg). done.
Qed.

Lemma lengths_from_runs_witness :
  exists cigar_list,
    cigar_str_to_list (render [(py "3", "M"%char); (py "12", "D"%char); (py "2", "I"%char)])
    = Ok cigar_list /\
    transcript_len cigar_list
    = runs_transcript_len [(py "3", "M"%char); (py "12", "D"%char); (py "2", "I"%char)] /\
    genome_len cigar_list
    = runs_genome_len [(py "3", "M"%char); (py "12", "D"%char); (py "2", "I"%char)].
Proof.
  apply lengths_from_runs.
  repeat apply Forall_cons_2; try apply Forall_nil_2;
    (split; [split; [discriminate | repeat constructor] | reflexivity]).
Defined.

(** ** The resolver: cursors *)

Lemma pos_loop_shift_g coord l tidx gpos k :
  pos_loop coord l tidx (gpos + k) = gpos_shift k (pos_loop coord l tidx gpos).
Proof.
  revert tidx gpos. induction l as [|pos l IH]; intros tidx gpos; simpl; [done |].
  destruct (tidx <? coord); [| done].
  destruct (Ascii.eqb pos "M").
  { replace (gpos + k + 1) with (gpos + 1 + k) by lia. apply IH. }
  destruct (Ascii.eqb pos "D").
  { replace (gpos + k + 1) with (gpos + 1 + k) by lia. apply IH. }
  destruct (Ascii.eqb pos "I"); [| apply IH].
  destruct (tidx + 1 =? coord); [done | apply IH].
Qed.

Lemma pos_loop_shift_t coord l tidx gpos k :
  pos_loop (coord + k) l (tidx + k) gpos = pos_loop coord l tidx gpos.
Proof.
  revert tidx gpos. induction l as [|pos l IH]; intros tidx gpos; simpl; [done |].
  replace (tidx + k <? coord + k) with (tidx <? coord)
    by (destruct (Z.ltb_spec tidx coord), (Z.ltb_spec (tidx + k) (coord + k)); lia).
  destruct (tidx <? coord); [| done].
  replace (tidx + k + 1) with (tidx + 1 + k) by lia.
  replace (tidx + 1 + k =? coord + k) with (tidx + 1 =? coord)
    by (destruct (Z.eqb_spec (tidx + 1) coord),
                 (Z.eqb_spec (tidx + 1 + k) (coord + k)); lia).
  destruct (Ascii.eqb pos "M"); [apply IH |].
  destruct (Ascii.eqb pos "D"); [apply IH |].
  destruct (Ascii.eqb pos "I"); [| apply IH].
  destruct (tidx + 1 =? coord); [done | apply IH].
Qed.

(** The genome cursor never moves back, and moves by at most one for
    each entry that is not an insertion. *)
Lemma pos_loop_range coord l tidx gpos r :
  pos_loop coord l tidx gpos = At r -> gpos <= r <= gpos + genome_len l.
Proof.
  revert tidx gpos. induction l as [|pos l IH]; intros tidx gpos; simpl.
  - intros [= <-]. rewrite genome_len_nil. lia.
  - rewrite genome_len_cons. pose proof (genome_len_nonneg l).
    destruct (tidx <? coord);
      [| intros [= <-]; destruct (Ascii.eqb pos "I"); lia].
    destruct (Ascii.eqb_spec pos "M") as [-> | HM].
    { intros H1%IH. simpl. lia. }
    destruct (Ascii.eqb_spec pos "D") as [-> | HD].
    { intros H1%IH. simpl. lia. }
    destruct (Ascii.eqb_spec pos "I") as [-> | HI].
    { destruct (tidx + 1 =? coord); [done |]. intros H1%IH. lia. }
    intros H1%IH. lia.
Qed.

(** Entries after the stretch that holds the coordinate do not count. *)
Lemma pos_loop_app_l coord l1 l2 tidx gpos :
  Forall is_mid l1 -> coord <= tidx + transcript_len l1 ->
  pos_loop coord (l1 ++ l2) tidx gpos = pos_loop coord l1 tidx gpos.
Proof.
  intros Hl1. revert tidx gpos.
  induction Hl1 as [|pos l1 Hpos _ IH]; intros tidx gpos Hc.
  - rewrite transcript_len_nil in Hc. simpl app.
    rewrite !pos_loop_reached by lia. done.
  - rewrite transcript_len_cons in Hc. simpl.
    destruct (Z.ltb_spec tidx coord); [| done].
    destruct Hpos as [-> | [-> | ->]]; simpl in *.
    + apply IH. lia.
    + destruct (tidx + 1 =? coord); [done |]. apply IH. lia.
    + apply IH. lia.
Qed.

Lemma pos_loop_at_match pre post gpos :
  Forall is_mid pre ->
  pos_loop (transcript_len pre) (pre ++ "M"%char :: post) (- 1) gpos
  = At (gpos + genome_len pre + 1).
Proof.
  intros Hpre. rewrite pos_loop_prefix by (done || lia). simpl.
  rewrite (proj2 (Z.ltb_lt _ _)) by lia. by rewrite pos_loop_reached by lia.
Qed.

Lemma pos_loop_at_insertion pre post gpos :
  Forall is_mid pre ->
  pos_loop (transcript_len pre) (pre ++ "I"%char :: post) (- 1) gpos = NA.
Proof.
  intros Hpre. rewrite pos_loop_prefix by (done || lia). simpl.
  rewrite (proj2 (Z.ltb_lt _ _)) by lia.
  by rewrite (proj2 (Z.eqb_eq _ _)) by lia.
Qed.

Lemma non_deletions_cons pos l :
  non_deletions (pos :: l)
  = if Ascii.eqb pos "D" then non_deletions l else pos :: non_deletions l.
Proof.
  unfold non_deletions. rewrite filter_cons.
  destruct (Ascii.eqb_spec pos "D") as [-> | Hne].
  - by rewrite decide_False by (intros H; by apply H).
  - by rewrite decide_True.
Qed.

(** The entry a coordinate in range lands on: the stretch before it has
    as many transcript positions as the coordinate says. *)
Lemma nth_non_deletion l coord :
  Forall is_mid l -> 0 <= coord < transcript_len l ->
  exists pre x post,
    l = pre ++ x :: post /\ transcript_len pre = coord /\
    (x = "M"%char \/ x = "I"%char) /\
    non_deletions l !! Z.to_nat coord = Some x.
Proof.
  intros Hl. revert coord. induction Hl as [|pos l Hpos Hl IH]; intros coord Hc.
  - rewrite transcript_len_nil in Hc. lia.
  - rewrite transcript_len_cons in Hc. rewrite non_deletions_cons.
    assert (Hstep : forall c, 0 <= c < transcript_len l ->
      exists pre x post, pos :: l = (pos :: pre) ++ x :: post /\
        transcript_len (pos :: pre)
          = (if Ascii.eqb pos "D" then 0 else 1) + c /\
        (x = "M"%char \/ x = "I"%char) /\
        non_deletions l !! Z.to_nat c = Some x).
    { intros c Hcr. destruct (IH c Hcr) as (pre & x & post & -> & <- & Hx & Hnth).
      exists pre, x, post. by rewrite transcript_len_cons. }
    destruct Hpos as [-> | [-> | ->]]; simpl in *.
    + destruct (decide (coord = 0)) as [-> | Hne].
      * exists [], "M"%char, l. by rewrite transcript_len_nil; auto.
      * destruct (Hstep (coord - 1)) as (pre & x & post & Heq & Hlen & Hx & Hnth); [lia |].
        exists ("M"%char :: pre), x, post. split; [done |]. split; [lia |].
        split; [done |]. replace (Z.to_nat coord) with (S (Z.to_nat (coord - 1))) by lia.
        done.
    + destruct (decide (coord = 0)) as [-> | Hne].
      * exists [], "I"%char, l. by rewrite transcript_len_nil; auto.
      * destruct (Hstep (coord - 1)) as (pre & x & post & Heq & Hlen & Hx & Hnth); [lia |].
        exists ("I"%char :: pre), x, post. split; [done |]. split; [lia |].
        split; [done |]. replace (Z.to_nat coord) with (S (Z.to_nat (coord - 1))) by lia.
        done.
    + destruct (Hstep coord) as (pre & x & post & Heq & Hlen & Hx & Hnth); [lia |].
      exists ("D"%char :: pre), x, post. split; [done |]. split; [lia |]. done.
Qed.

Lemma is_mid_app_l l1 l2 : Forall is_mid (l1 ++ l2) -> Forall is_mid l1.
Proof. intros H. by apply Forall_app in H as [? _]. Qed.

(** The value of the resolver at a coordinate in range, from the entry
    the coordinate lands on. *)
Lemma get_genome_pos_entry coord s start l pre x post :
  cigar_str_to_list s = Ok l -> Forall is_mid l ->
  l = pre ++ x :: post -> transcript_len pre = coord ->
  (x = "M"%char -> get_genome_pos coord s start = Ok (At (start + genome_len pre))) /\
  (x = "I"%char -> get_genome_pos coord s start = Ok NA).
Proof.
  intros Hs Hl -> <-. rewrite (get_genome_pos_expanded _ _ _ _ Hs).
  rewrite transcript_len_app, transcript_len_cons.
  pose proof (transcript_len_nonneg post). apply is_mid_app_l in Hl.
  split; intros ->; simpl.
  - destruct (Z.geb_spec (transcript_len pre) (transcript_len pre + (1 + transcript_len post)));
      [lia |].
    rewrite pos_loop_at_match by done. do 2 f_equal. lia.
  - destruct (Z.geb_spec (transcript_len pre) (transcript_len pre + (1 + transcript_len post)));
      [lia |].
    by rewrite pos_loop_at_insertion.
Qed.

(** ** The resolver: what a user can rely on *)

(** X8. For an expansion of matches, insertions and deletions and a
    coordinate in range, the resolver returns the sentinel exactly when
    the entry at that index among the entries that are not deletions is
    an insertion, and an integer exactly when it is a match. *)
Theorem resolve_by_entry transcript_coord cigar_str start_pos cigar_list :
  cigar_str_to_list cigar_str = Ok cigar_list -> Forall is_mid cigar_list ->
  0 <= transcript_coord < transcript_len cigar_list ->
  (get_genome_pos transcript_coord cigar_str start_pos = Ok NA
   <-> non_deletions cigar_list !! Z.to_nat transcript_coord = Some "I"%char) /\
  ((exists g, get_genome_pos transcript_coord cigar_str start_pos = Ok (At g))
   <-> non_deletions cigar_list !! Z.to_nat transcript_coord = Some "M"%char).
Proof.
  intros Hs Hl Hc.
  destruct (nth_non_deletion _ _ Hl Hc) as (pre & x & post & Heq & Hlen & Hx & Hnth).
  destruct (get_genome_pos_entry _ _ start_pos _ _ _ _ Hs Hl Heq Hlen) as [HM HI].
  rewrite Hnth. destruct Hx as [-> | ->].
  - rewrite (HM eq_refl). split; split; try done. eauto.
  - rewrite (HI eq_refl). split; split; try done. by intros [g Hg].
Qed.

Lemma resolve_by_entry_witness :
  (get_genome_pos 3 (py "3M2D1I1M1I2M") 2 = Ok NA
   <-> non_deletions (py "MMMDDIMIMM") !! Z.to_nat 3 = Some "I"%char) /\
  ((exists g, get_genome_pos 3 (py "3M2D1I1M1I2M") 2 = Ok (At g))
   <-> non_deletions (py "MMMDDIMIMM") !! Z.to_nat 3 = Some "M"%char).
Proof.
  apply resolve_by_entry; [reflexivity | | split; [discriminate | reflexivity]].
  repeat apply Forall_cons_2; try apply Forall_nil_2; unfold is_mid; auto.
Defined.

(** X9. An integer the resolver returns lies between the start position
    minus 1 and that plus the number of entries of the expansion that
    are not insertions; for an expansion of matches, insertions and
    deletions and a coordinate that is not negative it is at least the
    start position. *)
Theorem resolve_bounds :
  (forall transcript_coord cigar_str start_pos g,
      get_genome_pos transcript_coord cigar_str start_pos = Ok (At g) ->
      exists cigar_list,
        cigar_str_to_list cigar_str = Ok cigar_list /\
        start_pos - 1 <= g <= start_pos - 1 + genome_len cigar_list)
  /\ (forall transcript_coord cigar_str start_pos g cigar_list,
      cigar_str_to_list cigar_str = Ok cigar_list -> Forall is_mid cigar_list ->
      0 <= transcript_coord ->
      get_genome_pos transcript_coord cigar_str start_pos = Ok (At g) ->
      start_pos <= g).
Proof.
  split.
  - intros coord s start g H. unfold get_genome_pos in H.
    destruct (cigar_str_to_list s) as [l | e]; simpl in H; [| done].
    exists l. split; [done |].
    destruct (coord >=? transcript_len l); [done |].
    injection H as H. by apply pos_loop_range in H.
  - intros coord s start g l Hs Hl Hc H.
    assert (Hr : coord < transcript_len l).
    { rewrite (get_genome_pos_expanded _ _ _ _ Hs) in H.
      destruct (Z.geb_spec coord (transcript_len l)); [done | lia]. }
    destruct (nth_non_deletion _ _ Hl (conj Hc Hr))
      as (pre & x & post & Heq & Hlen & Hx & _).
    destruct (get_genome_pos_entry _ _ start _ _ _ _ Hs Hl Heq Hlen) as [HM HI].
    destruct Hx as [-> | ->].
    + rewrite (HM eq_refl) in H. injection H as <-.
      pose proof (genome_len_nonneg pre). lia.
    + by rewrite (HI eq_refl) in H.
Qed.

Lemma resolve_bounds_witness :
  (exists cigar_list,
     cigar_str_to_list (py "8M7D6M2I2M11D7M") = Ok cigar_list /\
     3 - 1 <= 38 <= 3 - 1 + genome_len cigar_list)
  /\ 3 <= 38.
Proof.
  split.
  - apply (proj1 resolve_bounds 19 (py "8M7D6M2I2M11D7M") 3 38). reflexivity.
  - apply (proj2 resolve_bounds 19 (py "8M7D6M2I2M11D7M") 3 38
             (py "MMMMMMMMDDDDDDDMMMMMMIIMMDDDDDDDDDDDMMMMMMM"));
      [reflexivity | | discriminate | reflexivity].
    repeat apply Forall_cons_2; try apply Forall_nil_2; unfold is_mid; auto.
Defined.

(** X10. On an expansion of matches, insertions and deletions the
    resolver is strictly increasing where it returns integers: of two
    coordinates that are not negative the larger one resolves to the
    larger genomic position. *)
Theorem resolve_increasing cigar_str start_pos cigar_list c1 c2 g1 g2 :
  cigar_str_to_list cigar_str = Ok cigar_list -> Forall is_mid cigar_list ->
  0 <= c1 < c2 ->
  get_genome_pos c1 cigar_str start_pos = Ok (At g1) ->
  get_genome_pos c2 cigar_str start_pos = Ok (At g2) ->
  g1 < g2.
Proof.
  intros Hs Hl Hc H1 H2.
  assert (Hr : c2 < transcript_len cigar_list).
  { rewrite (get_genome_pos_expanded _ _ _ _ Hs) in H2.
    destruct (Z.geb_spec c2 (transcript_len cigar_list)); [done | lia]. }
  destruct (nth_non_deletion _ c2 Hl) as (pre & x & post & Heq & Hlen & Hx & _); [lia |].
  destruct (get_genome_pos_entry _ _ start_pos _ _ _ _ Hs Hl Heq Hlen) as [HM HI].
  destruct Hx as [-> | ->]; [| by rewrite (HI eq_refl) in H2].
  rewrite (HM eq_refl) in H2. injection H2 as <-.
  rewrite (get_genome_pos_expanded _ _ _ _ Hs) in H1.
  destruct (c1 >=? transcript_len cigar_list); [done |]. injection H1 as H1.
  subst cigar_list.
  rewrite pos_loop_app_l in H1; [| by apply is_mid_app_l in Hl | lia].
  apply pos_loop_range in H1. lia.
Qed.

Lemma resolve_increasing_witness :
  get_genome_pos 4 (py "8M7D6M2I2M11D7M") 3 = Ok (At 7) /\
  get_genome_pos 8 (py "8M7D6M2I2M11D7M") 3 = Ok (At 18) /\
  7 < 18.
Proof.
  split; [reflexivity |]. split; [reflexivity |].
  apply (resolve_increasing (py "8M7D6M2I2M11D7M") 3
           (py "MMMMMMMMDDDDDDDMMMMMMIIMMDDDDDDDDDDDMMMMMMM") 4 8 7 18);
    [reflexivity | | split; [discriminate | reflexivity] | reflexivity | reflexivity].
  repeat apply Forall_cons_2; try apply Forall_nil_2; unfold is_mid; auto.
Defined.

(** X11. The result is relative to the start position: with the start
    moved by k an integer result moves by k, and the sentinel and the
    errors stay as they are. *)
Theorem resolve_shift transcript_coord cigar_str start_pos k :
  get_genome_pos transcript_coord cigar_str (start_pos + k)
  = res_map (gpos_shift k) (get_genome_pos transcript_coord cigar_str start_pos).
Proof.
  unfold get_genome_pos.
  destruct (cigar_str_to_list cigar_str) as [l | e]; simpl; [| done].
  destruct (transcript_coord >=? transcript_len l); simpl; [done |].
  replace (start_pos + k - 1) with (start_pos - 1 + k) by lia.
  by rewrite pos_loop_shift_g.
Qed.

(** X12. What follows an encoding does not change the result of a
    coordinate inside it: for an encoding in stored form with matches,
    insertions and deletions only, followed by any string that expands,
    a coordinate below its transcript length resolves as on the encoding
    alone. *)
Theorem resolve_prefix s1 s2 l1 l2 transcript_coord start_pos :
  accepted s1 -> cigar_str_to_list s1 = Ok l1 -> Forall is_mid l1 ->
  cigar_str_to_list s2 = Ok l2 ->
  transcript_coord < transcript_len l1 ->
  get_genome_pos transcript_coord (s1 ++ s2) start_pos
  = get_genome_pos transcript_coord s1 start_pos.
Proof.
  intros Hacc H1 Hmid H2 Hc.
  assert (H12 : cigar_str_to_list (s1 ++ s2) = Ok (l1 ++ l2)).
  { unfold cigar_str_to_list in *.
    destruct (accepted_expands s1 Hacc) as (runs & _ & Hruns & -> & Hexp).
    unfold cigar_str_to_list in Hexp. rewrite Hexp in H1. injection H1 as <-.
    rewrite cigar_loop_render_app
      by (eapply Forall_impl; [exact Hruns | apply re_run_wf]).
    simpl. by rewrite cigar_loop_acc, H2. }
  rewrite (get_genome_pos_expanded _ _ _ _ H12), (get_genome_pos_expanded _ _ _ _ H1).
  rewrite transcript_len_app. pose proof (transcript_len_nonneg l2).
  destruct (Z.geb_spec transcript_coord (transcript_len l1 + transcript_len l2)); [lia |].
  destruct (Z.geb_spec transcript_coord (transcript_len l1)); [lia |].
  by rewrite pos_loop_app_l by (done || lia).
Qed.

Lemma resolve_prefix_witness :
  get_genome_pos 4 (py "8M7D" ++ py "6M2I") 3 = get_genome_pos 4 (py "8M7D") 3.
Proof.
  apply (resolve_prefix (py "8M7D") (py "6M2I") (py "MMMMMMMMDDDDDDD") (py "MMMMMMII"));
    [split; reflexivity | reflexivity | | reflexivity | reflexivity].
  repeat apply Forall_cons_2; try apply Forall_nil_2; unfold is_mid; auto.
Defined.

(** X13. A coordinate past a first encoding resolves in what follows
    it: for an encoding in stored form with matches, insertions and
    deletions only, followed by a string that expands, the coordinate
    (transcript length of the first) + c, with c in the range of the
    second, resolves as c does on the second part with the start moved
    by the genome positions the first covers. *)
Theorem resolve_suffix s1 s2 l1 l2 c start_pos :
  accepted s1 -> cigar_str_to_list s1 = Ok l1 -> Forall is_mid l1 ->
  cigar_str_to_list s2 = Ok l2 ->
  0 <= c < transcript_len l2 ->
  get_genome_pos (transcript_len l1 + c) (s1 ++ s2) start_pos
  = get_genome_pos c s2 (start_pos + genome_len l1).
Proof.
  intros Hacc H1 Hmid H2 Hc.
  assert (H12 : cigar_str_to_list (s1 ++ s2) = Ok (l1 ++ l2)).
  { unfold cigar_str_to_list in *.
    destruct (accepted_expands s1 Hacc) as (runs & _ & Hruns & -> & Hexp).
    unfold cigar_str_to_list in Hexp. rewrite Hexp in H1. injection H1 as <-.
    rewrite cigar_loop_render_app
      by (eapply Forall_impl; [exact Hruns | apply re_run_wf]).
    simpl. by rewrite cigar_loop_acc, H2. }
  rewrite (get_genome_pos_expanded _ _ _ _ H12), (get_genome_pos_expanded _ _ _ _ H2).
  rewrite transcript_len_app.
  destruct (Z.geb_spec (transcript_len l1 + c) (transcript_len l1 + transcript_len l2));
    [lia |].
  destruct (Z.geb_spec c (transcript_len l2)); [lia |].
  f_equal. rewrite pos_loop_prefix by (done || lia).
  replace (transcript_len l1 + c) with (c + transcript_len l1) by lia.
  rewrite pos_loop_shift_t. f_equal. lia.
Qed.

Lemma resolve_suffix_witness :
  get_genome_pos (transcript_len (py "MMMMMMMMDDDDDDD") + 0) (py "8M7D" ++ py "6M2I") 3
  = get_genome_pos 0 (py "6M2I") (3 + genome_len (py "MMMMMMMMDDDDDDD")).
Proof.
  apply (resolve_suffix (py "8M7D") (py "6M2I") (py "MMMMMMMMDDDDDDD") (py "MMMMMMII"));
    [split; reflexivity | reflexivity | | reflexivity | split; [discriminate | reflexivity]].
  repeat apply Forall_cons_2; try apply Forall_nil_2; unfold is_mid; auto.
Defined.

Lemma pos_loop_skipped coord l tidx gpos :
  Forall (fun pos => pos = "|"%char) l -> pos_loop coord l tidx gpos = At gpos.
Proof.
  intros Hl. revert tidx. induction Hl as [|pos l -> _ IH]; intros tidx; simpl; [done |].
  destruct (tidx <? coord); [apply IH | done].
Qed.

Lemma expand_runs_bars runs :
  Forall (fun r : run => r.2 = "|"%char) runs ->
  Forall (fun pos => pos = "|"%char) (expand_runs runs).
Proof.
  induction 1 as [|[ds op] runs Hop _ IH]; [constructor |].
  unfold expand_runs; csimpl. apply Forall_app. split; [| exact IH].
  unfold expand_run. simpl in *. subst op.
  apply Forall_forall. by intros x [-> _]%elem_of_replicate.
Qed.

(** X14. An encoding in stored form whose operators are all the bar
    passes the validator, and the walk moves no cursor on its entries:
    every coordinate below the transcript length, which counts those
    entries, resolves to the start position minus 1. *)
Theorem resolve_bars cigar_str :
  accepted cigar_str ->
  Forall (fun c => is_digit c = true \/ c = "|"%char) cigar_str ->
  exists cigar_list,
    cigar_str_to_list cigar_str = Ok cigar_list /\
    transcript_len cigar_list = Z.of_nat (length cigar_list) /\
    forall transcript_coord start_pos,
      transcript_coord < transcript_len cigar_list ->
      get_genome_pos transcript_coord cigar_str start_pos = Ok (At (start_pos - 1)).
Proof.
  intros Hacc Hall.
  destruct (accepted_expands _ Hacc) as (runs & _ & Hruns & -> & Hexp).
  assert (Hbars : Forall (fun pos => pos = "|"%char) (expand_runs runs)).
  { apply expand_runs_bars. apply Forall_forall. intros r Hr.
    rewrite Forall_forall in Hall. rewrite Forall_forall in Hruns.
    destruct (Hall _ (run_op_in_render r runs Hr)) as [Hd | Hb]; [| done].
    destruct (Hruns _ Hr) as [_ [Ho | [Ho | [Ho | Ho]]]]; rewrite Ho in Hd; discriminate. }
  exists (expand_runs runs). split; [done |]. split.
  - clear -Hbars. induction Hbars as [|pos l -> _ IH]; [done |].
    rewrite transcript_len_cons, IH. simpl. lia.
  - intros coord start Hc. rewrite (get_genome_pos_expanded _ _ _ _ Hexp).
    destruct (Z.geb_spec coord (transcript_len (expand_runs runs))); [lia |].
    by rewrite pos_loop_skipped.
Qed.

Lemma resolve_bars_witness :
  exists cigar_list,
    cigar_str_to_list (py "3|") = Ok cigar_list /\
    transcript_len cigar_list = Z.of_nat (length cigar_list) /\
    forall transcript_coord start_pos,
      transcript_coord < transcript_len cigar_list ->
      get_genome_pos transcript_coord (py "3|") start_pos = Ok (At (start_pos - 1)).
Proof.
  apply resolve_bars; [split; reflexivity |].
  apply Forall_cons_2; [left; reflexivity |].
  apply Forall_cons_2; [right; reflexivity | apply Forall_nil_2].
Defined.

(** ** The loader: fields and lines *)

Lemma lstrip_split s :
  exists w, s = w ++ lstrip s /\ Forall (fun c => isspace c = true) w.
Proof.
  induction s as [|c s (w & Hw & Hsp)]; [by exists [] |].
  simpl. destruct (isspace c) eqn:E.
  - exists (c :: w). split; [by rewrite Hw at 1 | by constructor].
  - by exists [].
Qed.

Lemma strip_idem s : strip (strip s) = strip s.
Proof.
  apply strip_id.
  - intros c t Heq. unfold strip in Heq.
    destruct (lstrip_split (rev (lstrip s))) as (w & Hw & _).
    apply (f_equal (@rev ascii)) in Hw.
    rewrite rev_involutive, rev_app_distr, Heq in Hw. simpl in Hw.
    by apply lstrip_head in Hw.
  - intros c t Heq. unfold strip in Heq.
    apply (f_equal (@rev ascii)) in Heq.
    rewrite rev_involutive, rev_app_distr in Heq. simpl in Heq.
    by apply lstrip_head in Heq.
Qed.

Lemma split_length sep s :
  length (split sep s) = S (count_occ ascii_dec s sep).
Proof.
  induction s as [|c s IH]; [done |]. simpl.
  destruct (Ascii.eqb_spec c sep) as [-> | Hne].
  - destruct (ascii_dec sep sep); [| done]. simpl. by rewrite IH.
  - destruct (ascii_dec c sep); [done |].
    destruct (split sep s); simpl in *; [done | exact IH].
Qed.

Lemma columns_tabs line :
  columns line = S (count_occ ascii_dec line "009"%char).
Proof. unfold columns, line_fields. by rewrite length_fmap, split_length. Qed.

Lemma field_stripped n line : strip (field n line) = field n line.
Proof.
  unfold field, line_fields.
  destruct (decide (n < length (split "009" line))%nat) as [Hlt | Hge].
  - destruct (lookup_lt_is_Some_2 (split "009" line) n Hlt) as [x Hx].
    rewrite (nth_lookup_Some _ _ _ (strip x)); [apply strip_idem |].
    by rewrite list_lookup_fmap, Hx.
  - rewrite nth_overflow; [done |]. rewrite length_fmap. lia.
Qed.

(** What a successful load says of the lines read. *)
Lemma load_lines_ok_inv lines d0 d :
  load_lines lines d0 = Ok d ->
  Forall line_ok lines /\ NoDup (line_id <$> lines) /\
  forall line, line ∈ lines -> d0 !! line_id line = None.
Proof.
  revert d0. induction lines as [|line lines IH]; intros d0 Hload.
  - csimpl. split; [constructor |]. split; [constructor |].
    intros line H. by apply elem_of_nil in H.
  - destruct (decide (columns line = 4%nat)) as [Hc | Hc];
      [| by rewrite fields_not_four in Hload].
    simpl in Hload. rewrite (fields_four _ Hc) in Hload. simpl in Hload.
    destruct (is_cigar_valid (line_cigar line)) eqn:Hv; simpl in Hload; [| done].
    destruct (d0 !! line_id line) eqn:Hd; [done |].
    destruct (int (line_pos line)) as [start |] eqn:Hi; simpl in Hload; [| done].
    destruct (IH _ Hload) as (Hok & Hnd & Hnew).
    assert (Hfresh : line_id line ∉ line_id <$> lines).
    { intros (l & Hl & Hin)%list_elem_of_fmap. specialize (Hnew l Hin).
      rewrite <- Hl, lookup_insert_eq in Hnew. done. }
    split; [constructor; [by repeat split; eauto | done] |].
    split; [csimpl; by constructor |].
    intros l [-> | Hin]%elem_of_cons; [done |]. specialize (Hnew l Hin).
    destruct (decide (line_id line = line_id l)) as [Heq | Hne].
    + by rewrite <- Heq, lookup_insert_eq in Hnew.
    + by rewrite lookup_insert_ne in Hnew.
Qed.

(** Every record of the mapping is the record of a line. *)
Lemma load_lines_record lines d0 d tr_id r :
  load_lines lines d0 = Ok d -> d !! tr_id = Some r ->
  d0 !! tr_id = Some r \/
  exists line start,
    line ∈ lines /\ line_ok line /\ tr_id = line_id line /\
    int (line_pos line) = Ok start /\ r = line_record line start.
Proof.
  revert d0. induction lines as [|line lines IH]; intros d0 Hload Hr.
  - injection Hload as <-. by left.
  - destruct (decide (columns line = 4%nat)) as [Hc | Hc];
      [| by rewrite fields_not_four in Hload].
    simpl in Hload. rewrite (fields_four _ Hc) in Hload. simpl in Hload.
    destruct (is_cigar_valid (line_cigar line)) eqn:Hv; simpl in Hload; [| done].
    destruct (d0 !! line_id line) eqn:Hd; [done |].
    destruct (int (line_pos line)) as [start |] eqn:Hi; simpl in Hload; [| done].
    destruct (IH _ Hload Hr) as [H0 | (l & z & Hin & Hok & Hid & Hz & Hrec)].
    + destruct (decide (line_id line = tr_id)) as [<- | Hne].
      * rewrite lookup_insert_eq in H0. injection H0 as <-.
        right. exists line, start. split; [by left |].
        split; [by repeat split; eauto | done].
      * rewrite lookup_insert_ne in H0 by done. by left.
    + right. exists l, z. split; [by right | done].
Qed.

Lemma clean_of_ok lines :
  Forall line_ok lines -> NoDup (line_id <$> lines) ->
  forall pre line post, lines = pre ++ line :: post -> ~ rejected pre line.
Proof.
  intros Hok Hnd pre line post ->.
  apply Forall_app in Hok as [_ Hok]. apply Forall_cons in Hok as [(Hc & Hv & z & Hz) _].
  rewrite fmap_app in Hnd. csimpl in Hnd. apply NoDup_app in Hnd as (_ & Hnd & _).
  intros [[H | [H | H]] | [e He]]; [done | congruence | | congruence].
  apply (Hnd _ H). by left.
Qed.

Lemma loaded_cigar_accepted lines d tr_id r :
  get_transcript_dict lines = Ok d -> d !! tr_id = Some r -> accepted (cigar r).
Proof.
  intros Hload Hr.
  destruct (load_lines_record _ _ _ _ _ Hload Hr)
    as [H0 | (line & start & _ & (_ & Hv & _) & -> & _ & ->)].
  - by rewrite lookup_empty in H0.
  - simpl. split; [apply field_stripped | done].
Qed.

(** X15. Every record of a loaded table holds stripped fields and an
    encoding in stored form: its key, its chromosome and its encoding
    have no whitespace at either end, and the validator accepts the
    encoding. *)
Theorem loaded_records_stored lines d tr_id r :
  get_transcript_dict lines = Ok d -> d !! tr_id = Some r ->
  strip tr_id = tr_id /\ strip (gen_chrom r) = gen_chrom r /\ accepted (cigar r).
Proof.
  intros Hload Hr.
  destruct (load_lines_record _ _ _ _ _ Hload Hr)
    as [H0 | (line & start & _ & (_ & Hv & _) & -> & _ & ->)].
  - by rewrite lookup_empty in H0.
  - simpl. split; [apply field_stripped |]. split; [apply field_stripped |].
    split; [apply field_stripped | done].
Qed.

Lemma loaded_records_stored_witness :
  strip (py "TR1") = py "TR1" /\ strip (py "CHR1") = py "CHR1" /\
  accepted (py "8M7D6M2I2M11D7M").
Proof.
  apply (loaded_records_stored tr_table
           (<[py "TR2" := {| gen_chrom := py "CHR2"; gen_start := 10; cigar := py "20M" |}]>
              (<[py "TR1" := {| gen_chrom := py "CHR1"; gen_start := 3;
                                cigar := py "8M7D6M2I2M11D7M" |}]> ∅))
           (py "TR1")
           {| gen_chrom := py "CHR1"; gen_start := 3; cigar := py "8M7D6M2I2M11D7M" |});
    reflexivity.
Defined.

(** X16. A table is loaded exactly when every line has four columns, an
    encoding the validator accepts and a start position int() reads,
    and no two lines have the same identifier. *)
Theorem load_succeeds_iff lines :
  (exists d, get_transcript_dict lines = Ok d) <->
  Forall line_ok lines /\ NoDup (line_id <$> lines).
Proof.
  split.
  - intros [d Hd]. by destruct (load_lines_ok_inv _ _ _ Hd) as (? & ? & _).
  - intros [Hok Hnd].
    destruct (load_lines_clean lines (clean_of_ok lines Hok Hnd)) as (d & Hd & _).
    eauto.
Qed.

(** X17. The order of the lines of a table does not matter: a table
    that loads still loads, to the same mapping, with its lines in any
    other order. *)
Theorem load_permutation lines lines' d :
  get_transcript_dict lines = Ok d -> lines ≡ₚ lines' ->
  get_transcript_dict lines' = Ok d.
Proof.
  intros Hd Hperm.
  destruct (load_lines_ok_inv _ _ _ Hd) as (Hok & Hnd & _).
  assert (Hok' : Forall line_ok lines') by (by rewrite <- Hperm).
  assert (Hnd' : NoDup (line_id <$> lines')) by (by rewrite <- Hperm).
  destruct (load_lines_clean lines (clean_of_ok lines Hok Hnd)) as (d0 & Hd0 & Hrec).
  rewrite Hd in Hd0. injection Hd0 as <-.
  destruct (load_lines_clean lines' (clean_of_ok lines' Hok' Hnd')) as (d' & Hd' & Hrec').
  rewrite Hd'. f_equal. apply map_eq. intros tr_id.
  destruct (decide (tr_id ∈ line_id <$> lines)) as [Hin | Hout].
  - apply list_elem_of_fmap in Hin as (line & -> & Hin).
    destruct (Hrec line Hin) as (z & Hz & ->).
    destruct (Hrec' line) as (z' & Hz' & ->); [by rewrite <- Hperm |].
    congruence.
  - assert (d !! tr_id = None) as ->.
    { apply eq_None_not_Some. by rewrite (get_transcript_dict_keys _ _ Hd). }
    apply eq_None_not_Some. rewrite (get_transcript_dict_keys _ _ Hd').
    by rewrite <- Hperm.
Qed.

Lemma load_permutation_witness :
  get_transcript_dict (rev tr_table)
  = Ok (<[py "TR2" := {| gen_chrom := py "CHR2"; gen_start := 10; cigar := py "20M" |}]>
        (<[py "TR1" := {| gen_chrom := py "CHR1"; gen_start := 3;
                          cigar := py "8M7D6M2I2M11D7M" |}]> ∅)).
Proof.
  apply (load_permutation tr_table); [reflexivity |].
  apply Permutation_rev.
Defined.

(** X18. The error names the defect of the first line that is not
    read, by the order of the checks: a column count other than 4 is
    reported with the count; else an encoding the validator rejects is
    reported with the encoding; else an identifier of an earlier line is
    reported with the identifier, also when the start position of that
    line is not an integer. *)
Theorem load_error_names_defect pre line post d :
  get_transcript_dict pre = Ok d ->
  (columns line <> 4%nat ->
   get_transcript_dict (pre ++ line :: post)
   = Raise (ValueError (IncorrectFormat (columns line)))) /\
  (columns line = 4%nat -> is_cigar_valid (line_cigar line) = false ->
   get_transcript_dict (pre ++ line :: post)
   = Raise (ValueError (InvalidCigar (line_cigar line)))) /\
  (columns line = 4%nat -> is_cigar_valid (line_cigar line) = true ->
   line_id line ∈ line_id <$> pre ->
   get_transcript_dict (pre ++ line :: post)
   = Raise (ValueError (NotUnique (line_id line)))).
Proof.
  intros Hd. unfold get_transcript_dict in *.
  rewrite load_lines_app, Hd. cbn [bind].
  split; [| split].
  - intros Hc. by apply fields_not_four.
  - intros Hc Hv. simpl. rewrite (fields_four _ Hc). simpl. by rewrite Hv.
  - intros Hc Hv Hdup. simpl. rewrite (fields_four _ Hc). simpl. rewrite Hv. simpl.
    apply (get_transcript_dict_keys _ _ Hd) in Hdup as [t Ht]. by rewrite Ht.
Qed.

Lemma load_error_names_defect_witness :
  get_transcript_dict (tr_table ++ [py "TR1" ++ ["009"%char] ++ py "CHR9" ++ ["009"%char]
                                      ++ py "x" ++ ["009"%char] ++ py "3M"])
  = Raise (ValueError (NotUnique (py "TR1"))).
Proof.
  apply (proj2 (proj2 (load_error_names_defect tr_table
           (py "TR1" ++ ["009"%char] ++ py "CHR9" ++ ["009"%char]
              ++ py "x" ++ ["009"%char] ++ py "3M") [] _ eq_refl)));
    [reflexivity | reflexivity |].
  apply list_elem_of_here.
Defined.

(** X19. Every line of a table that loads has exactly three tab
    characters; a line with fewer or more, such as a blank line, ends
    the load with the format error. *)
Theorem loaded_lines_three_tabs lines d :
  get_transcript_dict lines = Ok d ->
  Forall (fun line => count_occ ascii_dec line "009"%char = 3%nat) lines.
Proof.
  intros Hd. destruct (load_lines_ok_inv _ _ _ Hd) as (Hok & _ & _).
  eapply Forall_impl; [exact Hok |]. intros line (Hc & _ & _).
  rewrite columns_tabs in Hc. by injection Hc.
Qed.

Lemma loaded_lines_three_tabs_witness :
  Forall (fun line => count_occ ascii_dec line "009"%char = 3%nat) tr_table.
Proof. eapply loaded_lines_three_tabs. reflexivity. Defined.

(** ** The query driver *)

Example query_end_to_end :
  query_transcript tr_table query_table
  = (Some [ {| row_id := py "TR1"; row_coord := 4; row_chrom := py "CHR1"; row_pos := At 7 |};
            {| row_id := py "TR2"; row_coord := 0; row_chrom := py "CHR2"; row_pos := At 10 |};
            {| row_id := py "TR1"; row_coord := 13; row_chrom := py "CHR1"; row_pos := At 23 |};
            {| row_id := py "TR2"; row_coord := 10; row_chrom := py "CHR2"; row_pos := At 20 |} ],
     None).
Proof. reflexivity. Qed.

(** Rows already written are never touched again. *)
Lemma query_loop_written d lines w :
  query_loop d lines w
  = (w ++ (query_loop d lines []).1, (query_loop d lines []).2).
Proof.
  revert w. induction lines as [|line lines IH]; intros w.
  - simpl. by rewrite app_nil_r.
  - cbn [query_loop]. destruct (line_fields line) as [|f0 [|f1 [|f2 fs]]];
      try (simpl; by rewrite app_nil_r).
    destruct (int f1) as [c | e]; [| simpl; by rewrite app_nil_r].
    destruct (d !! f0) as [t |]; [| simpl; by rewrite app_nil_r].
    destruct (get_genome_pos c (cigar t) (gen_start t)) as [g | e];
      [| simpl; by rewrite app_nil_r].
    rewrite (IH (w ++ _)), (IH ([] ++ _)). simpl. by rewrite <- app_assoc.
Qed.

Lemma query_loop_app d l1 l2 w :
  query_loop d (l1 ++ l2) w
  = match query_loop d l1 w with
    | (r1, None) => query_loop d l2 r1
    | (r1, Some e) => (r1, Some e)
    end.
Proof.
  revert w. induction l1 as [|line l1 IH]; intros w; [done |].
  rewrite <- app_comm_cons. cbn [query_loop].
  destruct (line_fields line) as [|f0 [|f1 [|f2 fs]]]; try done.
  destruct (int f1) as [c | e]; [| done].
  destruct (d !! f0) as [t |]; [| done].
  destruct (get_genome_pos c (cigar t) (gen_start t)) as [g | e]; [| done].
  apply IH.
Qed.

Lemma query_loop_answer d line rest w r :
  answers d line r -> query_loop d (line :: rest) w = query_loop d rest (w ++ [r]).
Proof.
  intros (cf & t & Hf & Hi & Hd & Hc & Hg). cbn [query_loop].
  rewrite Hf, Hi, Hd, Hg. destruct r; simpl in *. by subst.
Qed.

Lemma query_loop_ok d lines rows :
  query_loop d lines [] = (rows, None) <-> Forall2 (answers d) lines rows.
Proof.
  split.
  - revert rows. induction lines as [|line lines IH]; intros rows.
    + intros [= <-]. constructor.
    + cbn [query_loop].
      destruct (line_fields line) as [|f0 [|f1 [|f2 fs]]] eqn:Hf; try done.
      destruct (int f1) as [c | e] eqn:Hi; [| done].
      destruct (d !! f0) as [t |] eqn:Hd; [| done].
      destruct (get_genome_pos c (cigar t) (gen_start t)) as [g | e] eqn:Hg; [| done].
      rewrite query_loop_written. simpl. intros [= <- Hnone].
      constructor.
      * exists f1, t. by simpl.
      * apply IH. by destruct (query_loop d lines []) as [rs o]; simpl in *; subst.
  - induction 1 as [|line r lines rows Hans _ IH]; [done |].
    rewrite (query_loop_answer _ _ _ _ _ Hans), query_loop_written, IH. done.
Qed.

Lemma resolver_raise_range s coord start e :
  accepted s -> get_genome_pos coord s start = Raise e -> e = range_error coord.
Proof.
  intros Hacc. destruct (accepted_expands _ Hacc) as (runs & _ & _ & _ & Hexp).
  rewrite (get_genome_pos_expanded _ _ _ _ Hexp).
  destruct (coord >=? transcript_len (expand_runs runs)); [by intros [= <-] | done].
Qed.

(** X20. With the table loaded, a run ends without an error exactly
    when every query line has its answer, and then the rows written are
    these answers, one for each query line, in the order of the lines:
    the identifier and the coordinate of the query, the chromosome of
    its record and the result of the resolver, the sentinel included. *)
Theorem query_rows_in_order transcript_lines d query_lines rows :
  get_transcript_dict transcript_lines = Ok d ->
  (query_transcript transcript_lines query_lines = (Some rows, None)
   <-> Forall2 (answers d) query_lines rows).
Proof.
  intros Hd. unfold query_transcript. rewrite Hd.
  rewrite <- query_loop_ok.
  destruct (query_loop d query_lines []) as [rs o]. split.
  - by intros [= -> ->].
  - by intros [= -> ->].
Qed.

Lemma query_rows_in_order_witness :
  query_transcript tr_table [py "TR1" ++ ["009"%char] ++ py "13"]
  = (Some [{| row_id := py "TR1"; row_coord := 13; row_chrom := py "CHR1";
              row_pos := At 23 |}], None)
  <-> Forall2
        (answers tr_dict)
        [py "TR1" ++ ["009"%char] ++ py "13"]
        [{| row_id := py "TR1"; row_coord := 13; row_chrom := py "CHR1";
            row_pos := At 23 |}].
Proof. apply query_rows_in_order. reflexivity. Defined.

(** X21. Runs compose: when the queries of a first list all have their
    answer, the run on the first list followed by a second writes the
    rows of the first and then the rows of the second, and ends as the
    run on the second does. *)
Theorem query_concat transcript_lines q1 q2 r1 r2 e :
  query_transcript transcript_lines q1 = (Some r1, None) ->
  query_transcript transcript_lines q2 = (Some r2, e) ->
  query_transcript transcript_lines (q1 ++ q2) = (Some (r1 ++ r2), e).
Proof.
  unfold query_transcript.
  destruct (get_transcript_dict transcript_lines) as [d | err]; [| done].
  rewrite query_loop_app.
  destruct (query_loop d q1 []) as [rs1 o1]. intros [= -> ->] H2.
  rewrite query_loop_written.
  destruct (query_loop d q2 []) as [rs2 o2]. simpl in *. congruence.
Qed.

Lemma query_concat_witness :
  query_transcript tr_table ([py "TR1" ++ ["009"%char] ++ py "4"]
                               ++ [py "TR2" ++ ["009"%char] ++ py "99"])
  = (Some ([{| row_id := py "TR1"; row_coord := 4; row_chrom := py "CHR1";
               row_pos := At 7 |}] ++ []),
     Some (Inner (range_error 99))).
Proof. apply query_concat; reflexivity. Defined.

(** X22. A query that fails ends the run where it stands: the rows of
    the queries before it stay written, and no line after it is read,
    so nothing that follows changes the rows or the error. *)
Theorem query_failure_stops transcript_lines q1 q2 r1 e :
  query_transcript transcript_lines q1 = (Some r1, Some e) ->
  query_transcript transcript_lines (q1 ++ q2) = (Some r1, Some e).
Proof.
  unfold query_transcript.
  destruct (get_transcript_dict transcript_lines) as [d | err]; [| done].
  rewrite query_loop_app.
  destruct (query_loop d q1 []) as [rs1 o1]. by intros [= -> ->].
Qed.

Lemma query_failure_stops_witness :
  query_transcript tr_table
    ([py "TR1" ++ ["009"%char] ++ py "4"; py "TR3" ++ ["009"%char] ++ py "0"]
       ++ [py "TR2" ++ ["009"%char] ++ py "0"])
  = (Some [{| row_id := py "TR1"; row_coord := 4; row_chrom := py "CHR1";
              row_pos := At 7 |}],
     Some (KeyError (py "TR3"))).
Proof. apply query_failure_stops. reflexivity. Defined.

(** X23. When a line of the table is not read, the output is never
    opened and no query line is looked at: the run ends with the error
    of the loader, whatever the queries are. *)
Theorem query_bad_table transcript_lines pre line post :
  transcript_lines = pre ++ line :: post -> rejected pre line ->
  exists e, forall query_lines,
    query_transcript transcript_lines query_lines = (None, Some (Inner e)).
Proof.
  intros -> Hrej. unfold query_transcript, get_transcript_dict.
  rewrite load_lines_app.
  destruct (load_lines pre ∅) as [d | e] eqn:Hpre; cbn [bind].
  - destruct (load_lines_reject pre line d (get_transcript_dict_keys _ _ Hpre) Hrej)
      as [e He].
    exists e. intros ql. by rewrite He.
  - by exists e.
Qed.

Lemma query_bad_table_witness :
  exists e, forall query_lines,
    query_transcript (tr_table ++ [py ""]) query_lines = (None, Some (Inner e)).
Proof.
  apply (query_bad_table (tr_table ++ [py ""]) tr_table (py "") [] eq_refl).
  left. left. discriminate.
Defined.

(** X24. A query for an identifier that no line of the table has ends
    the run with KeyError of that identifier, once its line has two
    columns and a coordinate int() reads. *)
Theorem query_unknown_id transcript_lines d line rest tr_id coord_field c :
  get_transcript_dict transcript_lines = Ok d ->
  line_fields line = [tr_id; coord_field] -> int coord_field = Ok c ->
  tr_id ∉ line_id <$> transcript_lines ->
  query_transcript transcript_lines (line :: rest) = (Some [], Some (KeyError tr_id)).
Proof.
  intros Hd Hf Hi Hout. unfold query_transcript. rewrite Hd.
  cbn [query_loop]. rewrite Hf, Hi.
  assert (d !! tr_id = None) as ->; [| done].
  apply eq_None_not_Some. by rewrite (get_transcript_dict_keys _ _ Hd).
Qed.

Lemma query_unknown_id_witness :
  query_transcript tr_table [py "TR3" ++ ["009"%char] ++ py "0"]
  = (Some [], Some (KeyError (py "TR3"))).
Proof.
  eapply (query_unknown_id tr_table _ _ [] (py "TR3") (py "0") 0);
    [reflexivity | reflexivity | reflexivity |].
  intros H. apply elem_of_cons in H as [H | H]; [discriminate H |].
  apply elem_of_cons in H as [H | H]; [discriminate H |].
  by apply elem_of_nil in H.
Defined.

(** X25. With the table loaded, a query fails in one of four ways only,
    and writes no row: its line does not have two columns, its
    coordinate is not read by int(), its identifier is not in the table,
    or its coordinate is at or above the transcript length. The expander
    never fails on the encoding of a record. *)
Theorem query_failures transcript_lines d line rows e :
  get_transcript_dict transcript_lines = Ok d ->
  query_transcript transcript_lines [line] = (Some rows, Some e) ->
  rows = [] /\
  ((e = QueryFormat (length (line_fields line)) /\
    length (line_fields line) <> 2%nat) \/
   (exists tr_id coord_field,
       line_fields line = [tr_id; coord_field] /\
       e = Inner (ValueError (InvalidLiteral coord_field))) \/
   (exists tr_id coord_field,
       line_fields line = [tr_id; coord_field] /\
       e = KeyError tr_id /\ tr_id ∉ line_id <$> transcript_lines) \/
   (exists tr_id coord_field c t,
       line_fields line = [tr_id; coord_field] /\ int coord_field = Ok c /\
       d !! tr_id = Some t /\ e = Inner (range_error c))).
Proof.
  intros Hd. unfold query_transcript. rewrite Hd. cbn [query_loop].
  destruct (line_fields line) as [|f0 [|f1 [|f2 fs]]] eqn:Hf;
    try (intros [= <- <-]; split; [done |]; left; split; [done | simpl; lia]).
  destruct (int f1) as [c | e1] eqn:Hi.
  2:{ intros [= <- <-]. split; [done |]. right. left. exists f0, f1.
      split; [done |]. by rewrite (int_raise _ _ Hi). }
  destruct (d !! f0) as [t |] eqn:Ht.
  2:{ intros [= <- <-]. split; [done |]. right. right. left. exists f0, f1.
      split; [done |]. split; [done |].
      rewrite <- (get_transcript_dict_keys _ _ Hd). rewrite Ht. by intros [? ?]. }
  destruct (get_genome_pos c (cigar t) (gen_start t)) as [g | e2] eqn:Hg; [done |].
  intros [= <- <-]. split; [done |]. right. right. right. exists f0, f1, c, t.
  repeat (split; [done |]). f_equal.
  apply (resolver_raise_range _ _ _ _ (loaded_cigar_accepted _ _ _ _ Hd Ht) Hg).
Qed.

Lemma query_failures_witness :
  @nil row = [] /\
  ((Inner (range_error 99) = QueryFormat (length (line_fields (py "TR2" ++ ["009"%char] ++ py "99"))) /\
    length (line_fields (py "TR2" ++ ["009"%char] ++ py "99")) <> 2%nat) \/
   (exists tr_id coord_field,
       line_fields (py "TR2" ++ ["009"%char] ++ py "99") = [tr_id; coord_field] /\
       Inner (range_error 99) = Inner (ValueError (InvalidLiteral coord_field))) \/
   (exists tr_id coord_field,
       line_fields (py "TR2" ++ ["009"%char] ++ py "99") = [tr_id; coord_field] /\
       Inner (range_error 99) = KeyError tr_id /\ tr_id ∉ line_id <$> tr_table) \/
   (exists tr_id coord_field c t,
       line_fields (py "TR2" ++ ["009"%char] ++ py "99") = [tr_id; coord_field] /\
       int coord_field = Ok c /\
       tr_dict !! tr_id = Some t /\
       Inner (range_error 99) = Inner (range_error c))).
Proof. apply (query_failures tr_table); reflexivity. Defined.

(** ** The validator and the expander together *)

(** X26. On a string the validator accepts the expander raises exactly
    when the string ends with a newline: the newline that [$] lets
    through is read as an operator without a count. *)
Theorem valid_expands_unless_newline cigar_str :
  is_cigar_valid cigar_str = true ->
  ((exists e, cigar_str_to_list cigar_str = Raise e)
   <-> exists s, cigar_str = s ++ ["010"%char]).
Proof.
  intros Hv. apply is_cigar_valid_spec in Hv as (runs & Hne & Hruns & Hs).
  assert (Hwf : Forall wf_run runs)
    by (eapply Forall_impl; [exact Hruns | apply re_run_wf]).
  destruct Hs as [-> | ->].
  - split.
    + intros [e He]. unfold cigar_str_to_list in He.
      by rewrite cigar_loop_render in He.
    + intros [s Hs]. exfalso.
      assert (Hacc : accepted (render runs)) by (apply accepted_runs; eauto).
      destruct Hacc as [Hstrip _]. rewrite Hs in Hstrip.
      by apply strip_no_newline in Hstrip.
  - split; [eauto |]. intros _. unfold cigar_str_to_list.
    rewrite cigar_loop_render_app by done. simpl. eauto.
Qed.

Lemma valid_expands_unless_newline_witness :
  (exists e, cigar_str_to_list (py "3M" ++ ["010"%char]) = Raise e)
  <-> exists s, py "3M" ++ ["010"%char] = s ++ ["010"%char].
Proof. apply valid_expands_unless_newline. reflexivity. Defined.
